(** * msmtk: the Escher map renderer ([mosmo/preso/escher/escher_map.py])

    A shallow embedding of the colour model, the interpolation scale, the map
    model and the SVG renderer, with the properties of the specification
    stated against it.

    Modelling conventions.
    - Python numbers ([int] and [float]) are exact rationals [Q]; the rounding
      of IEEE arithmetic is outside the model, and so are NaN and the
      infinities: a statement for every value is a statement for every
      finite number.  Tests on numbers are the boolean tests the code
      performs ([<], [>], [>=], [==], truthiness).
    - Python exceptions are the constructors of [Exn]; a computation that may
      raise returns a [Result].
    - A Python [str] is a [string] whose characters are code points below 256.
    - A [dict] that the code iterates over is the list of its items in
      insertion order; a [dict] that is only looked up is a [gmap].
    - [math.sqrt], [str()] of a number and the [.1f] format are parameters of
      the renderer (Section [Renderer]). *)

From Stdlib Require Import ZArith QArith Qabs Qround String Ascii List Lia Lqa.
From Stdlib Require Import Sorted Permutation DecimalString.
From stdpp Require Import gmap strings.
Import ListNotations.

Local Open Scope string_scope.

(** ** Exceptions and results *)

Inductive Exn : Type :=
| ValueError
| AttributeError
| IndexError
| KeyError
| TypeError
| UnboundLocalError
| ZeroDivisionError.

Inductive Result (A : Type) : Type :=
| OK (a : A)
| Raise (e : Exn).

Arguments OK {A} a.
Arguments Raise {A} e.

Definition bind {A B : Type} (m : Result A) (k : A -> Result B) : Result B :=
  match m with
  | OK a => k a
  | Raise e => Raise e
  end.

Notation "'do' x <- m ; k" := (bind m (fun x => k))
  (at level 10, x name, m at level 100, k at level 200).
Notation "'do' ' p <- m ; k" := (bind m (fun x => match x with p => k end))
  (at level 10, p pattern, m at level 100, k at level 200).

Definition succeeds {A : Type} (m : Result A) : bool :=
  match m with OK _ => true | Raise _ => false end.

Fixpoint mapM {A B : Type} (f : A -> Result B) (l : list A) : Result (list B) :=
  match l with
  | [] => OK []
  | x :: l' => do y <- f x; do ys <- mapM f l'; OK (y :: ys)
  end.

(** ** Python numbers *)

Definition Qlt_bool (x y : Q) : bool := negb (Qle_bool y x).

(** Truthiness of a number: [0] is false. *)
Definition truthy_num (x : Q) : bool := negb (Qeq_bool x 0).

(** [x / y]: raises [ZeroDivisionError] on a zero divisor. *)
Definition py_div (x y : Q) : Result Q :=
  if Qeq_bool y 0 then Raise ZeroDivisionError else OK (x / y)%Q.

(** [int(x)]: truncation toward zero. *)
Definition py_int (x : Q) : Z := Z.quot (Qnum x) (Zpos (Qden x)).

(** ** Python strings *)

Definition chr (n : nat) : ascii := ascii_of_nat n.
Definition ord (c : ascii) : nat := nat_of_ascii c.

(** [s[i:j]] for [0 <= i <= j]. *)
Definition slice (i j : nat) (s : string) : string := substring i (j - i) s.
(** [s[i:]] for [0 <= i]. *)
Definition slice_from (i : nat) (s : string) : string :=
  substring i (String.length s - i) s.

Definition startswith (p s : string) : bool := String.prefix p s.

(** *** [int(s, 16)] *)

(** Whitespace accepted around the literal: the C [isspace] set, and the two
    Latin-1 characters Python maps to a space first. *)
Definition is_space (c : ascii) : bool :=
  let n := ord c in
  (((9 <=? n) && (n <=? 13)) || (n =? 32) || (n =? 133) || (n =? 160))%nat.

Definition hex_digit_value (c : ascii) : option Z :=
  let n := ord c in
  if ((48 <=? n) && (n <=? 57))%nat then Some (Z.of_nat (n - 48))
  else if ((97 <=? n) && (n <=? 102))%nat then Some (Z.of_nat (n - 87))
  else if ((65 <=? n) && (n <=? 70))%nat then Some (Z.of_nat (n - 55))
  else None.

Definition is_hex_digit (c : ascii) : bool :=
  match hex_digit_value c with Some _ => true | None => false end.

Definition is_underscore (c : ascii) : bool := (ord c =? 95)%nat.

Fixpoint lstrip (l : list ascii) : list ascii :=
  match l with
  | c :: l' => if is_space c then lstrip l' else l
  | [] => []
  end.

(** The digits of the literal: underscores may separate digits, one at a
    time; the scan stops at the first other character.  Returns the value,
    the number of digits, whether the last character scanned was an
    underscore, and the rest of the input; [None] on a doubled underscore. *)
Fixpoint scan_digits (acc : Z) (ndigits : nat) (prev_us : bool) (l : list ascii)
  : option (Z * nat * bool * list ascii) :=
  match l with
  | [] => Some (acc, ndigits, prev_us, [])
  | c :: l' =>
      if is_underscore c then
        if prev_us then None else scan_digits acc ndigits true l'
      else
        match hex_digit_value c with
        | Some d => scan_digits (16 * acc + d) (S ndigits) false l'
        | None => Some (acc, ndigits, prev_us, l)
        end
  end.

Definition skip_sign (l : list ascii) : Z * list ascii :=
  match l with
  | c :: l' =>
      if (ord c =? 43)%nat then (1%Z, l')
      else if (ord c =? 45)%nat then ((-1)%Z, l')
      else (1%Z, l)
  | [] => (1%Z, [])
  end.

(** The [0x] prefix, and the one underscore allowed right after it. *)
Definition skip_prefix (l : list ascii) : list ascii :=
  match l with
  | c0 :: cx :: l' =>
      if ((ord c0 =? 48) && ((ord cx =? 120) || (ord cx =? 88)))%nat then
        match l' with
        | u :: l'' => if is_underscore u then l'' else l'
        | [] => l'
        end
      else l
  | _ => l
  end.

Definition int16 (s : string) : Result Z :=
  let l := lstrip (list_ascii_of_string s) in
  let '(sign, l) := skip_sign l in
  let l := skip_prefix l in
  match l with
  | c :: _ =>
      if is_underscore c then Raise ValueError
      else
        match scan_digits 0 0 false l with
        | Some (v, ndigits, prev_us, rest) =>
            if prev_us then Raise ValueError
            else if (ndigits =? 0)%nat then Raise ValueError
            else
              match lstrip rest with
              | [] => OK (sign * v)%Z
              | _ :: _ => Raise ValueError
              end
        | None => Raise ValueError
        end
  | [] => Raise ValueError
  end.

(** *** [format(n, "02x")] *)

Definition hex_char (d : Z) : ascii :=
  if (d <? 10)%Z then chr (Z.to_nat d + 48) else chr (Z.to_nat d + 87).

(** Lowercase hexadecimal digits of [n >= 0], most significant first, at
    least one digit. *)
Fixpoint hex_digits_fuel (fuel : nat) (n : Z) (acc : list ascii) : list ascii :=
  match fuel with
  | O => acc
  | S fuel' =>
      let acc' := hex_char (n mod 16) :: acc in
      if (n <? 16)%Z then acc' else hex_digits_fuel fuel' (n / 16) acc'
  end.

Definition hex_digits (n : Z) : list ascii :=
  hex_digits_fuel (S (Z.to_nat (Z.log2 n))) n [].

Definition zero_pad (width : nat) (l : list ascii) : list ascii :=
  repeat (chr 48) (width - List.length l) ++ l.

(** Zero padding is sign-aware: the sign comes first and counts in the width. *)
Definition format_02x (n : Z) : string :=
  if (n <? 0)%Z then
    string_of_list_ascii (chr 45 :: zero_pad 1 (hex_digits (- n)))
  else
    string_of_list_ascii (zero_pad 2 (hex_digits n)).

(** ** Color *)

Record Color : Type := mkColor { r : Q; g : Q; b : Q }.

Definition Color_from_hex (hexstr : string) : Result Color :=
  if startswith "#" hexstr && (String.length hexstr =? 7)%nat then
    do cr <- int16 (slice 1 3 hexstr);
    do cg <- int16 (slice 3 5 hexstr);
    do cb <- int16 (slice_from 5 hexstr);
    OK (mkColor (inject_Z cr) (inject_Z cg) (inject_Z cb))
  else Raise ValueError.

Definition Color_str (c : Color) : string :=
  "#" ++ format_02x (py_int (r c + (1 # 2)))
      ++ format_02x (py_int (g c + (1 # 2)))
      ++ format_02x (py_int (b c + (1 # 2))).

Definition Color_add (c1 c2 : Color) : Color :=
  mkColor (r c1 + r c2) (g c1 + g c2) (b c1 + b c2).

Definition Color_sub (c1 c2 : Color) : Color :=
  mkColor (r c1 - r c2) (g c1 - g c2) (b c1 - b c2).

Definition Color_mul (c : Color) (factor : Q) : Color :=
  mkColor (r c * factor) (g c * factor) (b c * factor).

Definition Color_rmul (factor : Q) (c : Color) : Color := Color_mul c factor.

Definition Color_truediv (c : Color) (factor : Q) : Result Color :=
  do cr <- py_div (r c) factor;
  do cg <- py_div (g c) factor;
  do cb <- py_div (b c) factor;
  OK (mkColor cr cg cb).

(** ** Scale *)

(** A stop is the tuple [(value, color, size)] held in [Scale.stops]. *)
Record Stop : Type := mkStop {
  stop_value : Q;
  stop_color : option Color;
  stop_size : option Q
}.

Record Scale : Type := mkScale {
  stops : list Stop;
  use_abs : bool
}.

(** [sorted(..., key=lambda x: x[0])]: a stable sort on the stop value. *)
Fixpoint insert_stop (s : Stop) (l : list Stop) : list Stop :=
  match l with
  | [] => [s]
  | t :: l' =>
      if Qle_bool (stop_value s) (stop_value t) then s :: t :: l'
      else t :: insert_stop s l'
  end.

Fixpoint sorted_by_value (l : list Stop) : list Stop :=
  match l with
  | [] => []
  | s :: l' => insert_stop s (sorted_by_value l')
  end.

(** The stops argument: the items [value -> (color, size)] of the mapping, in
    iteration order; a color or size of [None] is [None] here. *)
Definition StopItem : Type := (Q * (option string * option Q))%type.

(** [Color.from_hex(color)] on an item's color: [None] has no [startswith]. *)
Definition stop_of_item (item : StopItem) : Result Stop :=
  let '(value, (color, size)) := item in
  match color with
  | None => Raise AttributeError
  | Some hexstr =>
      do c <- Color_from_hex hexstr;
      OK (mkStop value (Some c) size)
  end.

Definition Scale_init (items : list StopItem) (use_abs : bool) : Result Scale :=
  do l <- mapM stop_of_item items;
  OK (mkScale (sorted_by_value l) use_abs).

(** The bracketing loop of [style]: [lb] is the running lower bracket, [ub]
    the loop variable ([None] as long as it is unbound). *)
Fixpoint bracket (value : Q) (lb : Stop) (ub : option Stop) (l : list Stop)
  : Stop * option Stop :=
  match l with
  | [] => (lb, ub)
  | u :: l' =>
      if Qle_bool value (stop_value u) then (lb, Some u)
      else bracket value u (Some u) l'
  end.

(** Truthiness of the second and third component of a stop: [None] is false,
    a [Color] object is true, a number is true unless it is [0]. *)
Definition truthy_color (c : option Color) : bool :=
  match c with Some _ => true | None => false end.

Definition truthy_size (s : option Q) : bool :=
  match s with Some x => truthy_num x | None => false end.

(** [p * ub[1] + (1 - p) * lb[1]] *)
Definition blend_color (p : Q) (ub lb : Color) : Color :=
  Color_add (Color_rmul p ub) (Color_rmul (1 - p) lb).

(** [p * ub[2] + (1 - p) * lb[2]] *)
Definition blend_size (p : Q) (ub lb : Q) : Q := (p * ub + (1 - p) * lb)%Q.

Definition Scale_style (self : Scale) (value : Q) : Result (option Color * option Q) :=
  let value := if use_abs self then Qabs value else value in
  match stops self with
  | [] => Raise IndexError
  | first :: rest =>
      let last := List.last rest first in
      if Qlt_bool value (stop_value first) then
        OK (stop_color first, stop_size first)
      else if Qlt_bool (stop_value last) value then
        OK (stop_color last, stop_size last)
      else
        match bracket value first None rest with
        | (_, None) => Raise UnboundLocalError
        | (lb, Some ub) =>
            do p <- py_div (value - stop_value lb) (stop_value ub - stop_value lb);
            let color :=
              match stop_color lb, stop_color ub with
              | Some cl, Some cu =>
                  if truthy_color (Some cl) && truthy_color (Some cu)
                  then Some (blend_color p cu cl) else None
              | _, _ => None
              end in
            let size :=
              match stop_size lb, stop_size ub with
              | Some sl, Some su =>
                  if truthy_size (Some sl) && truthy_size (Some su)
                  then Some (blend_size p su sl) else None
              | _, _ => None
              end in
            OK (color, size)
        end
  end.

(** *** Presets *)

(** A dict display [{k1: v1, k2: v2, ...}]: a later equal key replaces the
    value and keeps the position of the first. *)
Fixpoint dict_set (k : Q) (v : option string * option Q) (d : list StopItem)
  : list StopItem :=
  match d with
  | [] => [(k, v)]
  | (k', v') :: d' =>
      if Qeq_bool k' k then (k', v) :: d' else (k', v') :: dict_set k v d'
  end.

Definition dict_display (items : list StopItem) : list StopItem :=
  fold_left (fun d kv => dict_set (fst kv) (snd kv) d) items [].

Definition GaBuGeRd (minval mid1 mid2 maxval : Q) : Result Scale :=
  Scale_init (dict_display [(minval, (Some "#c8c8c8", Some 12%Q));
                            (mid1, (Some "#9696ff", Some 16%Q));
                            (mid2, (Some "#209123", Some 20%Q));
                            (maxval, (Some "#ff0000", Some 25%Q))]) true.

Definition GaBuRd (minval midval maxval : Q) : Result Scale :=
  Scale_init (dict_display [(minval, (Some "#c8c8c8", Some 12%Q));
                            (midval, (Some "#9696ff", Some 20%Q));
                            (maxval, (Some "#ff0000", Some 25%Q))]) true.

Definition RdYlBu (minval midval maxval : Q) : Result Scale :=
  Scale_init (dict_display [(minval, (Some "#d7191c", Some 12%Q));
                            (midval, (Some "#ffffbf", Some 20%Q));
                            (maxval, (Some "#2c7bb6", Some 25%Q))]) true.

Definition GeGaRd (minval maxval : Q) : Result Scale :=
  Scale_init (dict_display [(minval, (Some "#209123", Some 25%Q));
                            (0%Q, (Some "#c8c8c8", Some 12%Q));
                            (maxval, (Some "#ff0000", Some 25%Q))]) false.

Definition WhYlRd (minval med maxval : Q) : Result Scale :=
  Scale_init (dict_display [(minval, (Some "#fffaf0", Some 20%Q));
                            (med, (Some "#f1c470", Some 30%Q));
                            (maxval, (Some "#800000", Some 40%Q))]) true.

Definition GaBu (minval maxval : Q) : Result Scale :=
  Scale_init (dict_display [(minval, (Some "#eeeeee", Some 5%Q));
                            (maxval, (Some "#1f77b4", Some 20%Q))]) true.

(** ** The map model *)

Definition Point : Type := (Q * Q)%type.

(** The parsed input document ([map_json[1]]).  A key that the code reads
    only for metabolite nodes is optional. *)
Record NodeJson : Type := mkNodeJson {
  node_type : string;
  node_x : Q;
  node_y : Q;
  node_bigg_id : option string;
  node_is_primary : option bool;
  node_label_x : option Q;
  node_label_y : option Q
}.

Record SegmentJson : Type := mkSegmentJson {
  from_node_id : string;
  to_node_id : string;
  seg_b1 : option Point;
  seg_b2 : option Point
}.

Record ReactionJson : Type := mkReactionJson {
  rxn_bigg_id : string;
  rxn_metabolites : list (string * Q);
  reversibility : bool;
  rxn_label_x : Q;
  rxn_label_y : Q;
  rxn_segments : list (string * SegmentJson)
}.

Record MapJson : Type := mkMapJson {
  canvas_x : Q;
  canvas_y : Q;
  canvas_width : Q;
  canvas_height : Q;
  nodes : list (string * NodeJson);
  reactions_json : list (string * ReactionJson)
}.

(** [MapNode] and its subclass [MapMetabolite].  Nodes are objects, compared
    by identity: [node_ref] is the key under which the object was created
    in [all_nodes], one object per key. *)
Inductive Node : Type :=
| MapNode (node_ref : string) (center : Point)
| MapMetabolite (node_ref : string) (center : Point)
    (metabolite_id : string) (primary : bool) (label_pos : Point).

Definition node_ref (n : Node) : string :=
  match n with MapNode k _ => k | MapMetabolite k _ _ _ _ => k end.

Definition center (n : Node) : Point :=
  match n with MapNode _ c => c | MapMetabolite _ c _ _ _ => c end.

(** [isinstance(n, MapMetabolite)] *)
Definition is_metabolite (n : Node) : bool :=
  match n with MapNode _ _ => false | MapMetabolite _ _ _ _ _ => true end.

Definition same_node (n1 n2 : Node) : bool := String.eqb (node_ref n1) (node_ref n2).

(** [MapMetabolite.size] *)
Definition Node_size (n : Node) : Result Q :=
  match n with
  | MapNode _ _ => Raise AttributeError
  | MapMetabolite _ _ _ primary _ => OK (if primary then 20 else 12)%Q
  end.

Definition getitem {A : Type} (o : option A) : Result A :=
  match o with Some a => OK a | None => Raise KeyError end.

Definition Node_init (key : string) (node : NodeJson) : Result Node :=
  if String.eqb (node_type node) "metabolite" then
    do bigg <- getitem (node_bigg_id node);
    do prim <- getitem (node_is_primary node);
    do lx <- getitem (node_label_x node);
    do ly <- getitem (node_label_y node);
    OK (MapMetabolite key (node_x node, node_y node) bigg prim (lx, ly))
  else OK (MapNode key (node_x node, node_y node)).

Record MapSegment : Type := mkMapSegment {
  from_node : Node;
  to_node : Node;
  b1 : option Point;
  b2 : option Point;
  metabolite_id : option string;
  count : option Q;
  has_arrow : bool
}.

Record MapReaction : Type := mkMapReaction {
  reaction_id : string;
  stoich : gmap string Q;
  reversible : bool;
  label_pos : Point;
  segments : list MapSegment
}.

(** [MapSegment.__init__], given the [stoich] and [reversible] of the owning
    reaction, which are set before the segments are built. *)
Definition MapSegment_init (rxn_stoich : gmap string Q) (rxn_reversible : bool)
    (segment_json : SegmentJson) (all_nodes : gmap string Node) : Result MapSegment :=
  do from0 <- getitem (all_nodes !! from_node_id segment_json);
  do to0 <- getitem (all_nodes !! to_node_id segment_json);
  let b1_0 := seg_b1 segment_json in
  let b2_0 := seg_b2 segment_json in
  let '(from1, to1, b1_1, b2_1) :=
    if is_metabolite from0 then (to0, from0, b2_0, b1_0)
    else (from0, to0, b1_0, b2_0) in
  match to1 with
  | MapMetabolite _ _ mid _ _ =>
      do c <- getitem (rxn_stoich !! mid);
      OK (mkMapSegment from1 to1 b1_1 b2_1 (Some mid) (Some c)
            (Qlt_bool 0 c || rxn_reversible))
  | MapNode _ _ =>
      OK (mkMapSegment from1 to1 b1_1 b2_1 None None false)
  end.

(** [{m["bigg_id"]: m["coefficient"] for m in ...}]: a later entry wins. *)
Definition stoich_of (mets : list (string * Q)) : gmap string Q :=
  fold_left (fun d m => <[fst m := snd m]> d) mets ∅.

Definition MapReaction_init (reaction_json : ReactionJson)
    (all_nodes : gmap string Node) : Result MapReaction :=
  let st := stoich_of (rxn_metabolites reaction_json) in
  let rev := reversibility reaction_json in
  do segs <- mapM (fun kv => MapSegment_init st rev (snd kv) all_nodes)
                  (rxn_segments reaction_json);
  OK (mkMapReaction (rxn_bigg_id reaction_json) st rev
        (rxn_label_x reaction_json, rxn_label_y reaction_json) segs).

(** [width] and [height] of the drawing: a string or a number. *)
Inductive Dim : Type :=
| DimStr (s : string)
| DimNum (x : Q).

(** [canvas_size] is the attribute [size] of the source. *)
Record EscherMap : Type := mkEscherMap {
  width : option Dim;
  height : option Dim;
  reaction_scale : option Scale;
  metabolite_scale : option Scale;
  origin : Point;
  canvas_size : Point;
  metabolites : list Node;
  reactions : list MapReaction
}.

(** The loop over [nodes.items()]: fills [all_nodes] and collects the
    metabolites in order. *)
Fixpoint build_nodes (items : list (string * NodeJson))
    (all_nodes : gmap string Node) (mets : list Node)
  : Result (gmap string Node * list Node) :=
  match items with
  | [] => OK (all_nodes, mets)
  | (node_id, node) :: items' =>
      do n <- Node_init node_id node;
      build_nodes items' (<[node_id := n]> all_nodes)
        (if is_metabolite n then mets ++ [n] else mets)
  end.

Definition EscherMap_init (map_json : MapJson) (width height : option Dim)
    (reaction_scale metabolite_scale : option Scale) : Result EscherMap :=
  do '(all_nodes, mets) <- build_nodes (nodes map_json) ∅ [];
  do rxns <- mapM (fun kv => MapReaction_init (snd kv) all_nodes)
                  (reactions_json map_json);
  OK (mkEscherMap width height reaction_scale metabolite_scale
        (canvas_x map_json, canvas_y map_json)
        (canvas_width map_json, canvas_height map_json)
        mets rxns).

(** ** The output tree ([xml.etree.ElementTree.Element]) *)

#[warnings="-register-all"]
Inductive Element : Type :=
| mkElement (tag : string) (attrib : list (string * string))
    (text : option string) (children : list Element).

Definition tag (e : Element) : string :=
  match e with mkElement t _ _ _ => t end.
Definition attrib (e : Element) : list (string * string) :=
  match e with mkElement _ a _ _ => a end.
Definition text (e : Element) : option string :=
  match e with mkElement _ _ t _ => t end.
Definition children (e : Element) : list Element :=
  match e with mkElement _ _ _ c => c end.

(** [attrib[key] = value] on the ordered attribute dict. *)
Fixpoint attrib_set (key value : string) (a : list (string * string))
  : list (string * string) :=
  match a with
  | [] => [(key, value)]
  | (k, v) :: a' =>
      if String.eqb k key then (k, value) :: a' else (k, v) :: attrib_set key value a'
  end.

Fixpoint attrib_get (key : string) (a : list (string * string)) : option string :=
  match a with
  | [] => None
  | (k, v) :: a' => if String.eqb k key then Some v else attrib_get key a'
  end.

(** [e.set(key, value)], [e.get(key)], [e.append(child)] *)
Definition set (e : Element) (key value : string) : Element :=
  match e with mkElement t a tx c => mkElement t (attrib_set key value a) tx c end.
Definition get (e : Element) (key : string) : option string :=
  attrib_get key (attrib e).
Definition append (e child : Element) : Element :=
  match e with mkElement t a tx c => mkElement t a tx (c ++ [child]) end.

(** Fixed presentation constants. *)
Definition CSS : string := "
    #canvas {
      fill: #ffffff;
      stroke: #cccccc;
    }
    .label {
      font-family: sans-serif;
      font-style: italic;
      font-weight: bold;
      stroke: none;
      text-rendering: optimizelegibility;
    }
    #reactions .label {
      font-size: 30px;
      fill: #334e75;
    }
    #reactions .label.stoich {
      font-size: 12px;
      fill: #334e75;
    }
    #metabolites .label {
      font-size: 20px;
      fill: black;
    }
".
Definition MET_FILL : string := "#e0865b".
Definition MET_STROKE : string := "#a24510".
Definition RXN_STROKE : string := "#334e75".
Definition ARROWHEAD : string := "url(#arrowhead)".

(** ** The renderer *)

Section Renderer.

(** [math.sqrt], [str(x)] of a number and [format(x, ".1f")]. *)
Variable sqrt : Q -> Q.
Variable str_num : Q -> string.
Variable fmt_1f : Q -> string.

Definition str_dim (d : option Dim) : string :=
  match d with
  | None => "None"
  | Some (DimStr s) => s
  | Some (DimNum x) => str_num x
  end.

Definition str_color (c : option Color) : string :=
  match c with None => "None" | Some c => Color_str c end.

Definition str_size (x : option Q) : string :=
  match x with None => "None" | Some x => str_num x end.

Definition line_d (p q : Point) : string :=
  "M " ++ fmt_1f (fst p) ++ " " ++ fmt_1f (snd p)
    ++ " L " ++ fmt_1f (fst q) ++ " " ++ fmt_1f (snd q).

Definition curve_d (p c1 c2 q : Point) : string :=
  "M " ++ fmt_1f (fst p) ++ " " ++ fmt_1f (snd p)
    ++ " C " ++ fmt_1f (fst c1) ++ " " ++ fmt_1f (snd c1)
    ++ " " ++ fmt_1f (fst c2) ++ " " ++ fmt_1f (snd c2)
    ++ " " ++ fmt_1f (fst q) ++ " " ++ fmt_1f (snd q).

(** The first half of [MapSegment.to_svg] for a metabolite segment: the
    vector [(dx, dy)] from the approach point to the node, its length [l] and
    the trimmed end point [end]. *)
Record Trim : Type := mkTrim {
  trim_dx : Q;
  trim_dy : Q;
  trim_l : Q;
  trim_end : Point
}.

Definition trim (self : MapSegment) : Result Trim :=
  let start := center (from_node self) in
  let end_ := center (to_node self) in
  let approach := match b2 self with Some p => p | None => start end in
  let dx := (fst end_ - fst approach)%Q in
  let dy := (snd end_ - snd approach)%Q in
  let l := sqrt (dx * dx + dy * dy) in
  let padding := (if has_arrow self then 20 else 10)%Q in
  let minlen := 5%Q in
  do radius <- Node_size (to_node self);
  let _l := (l - radius - padding)%Q in
  let _l := if Qlt_bool _l minlen then (l - radius)%Q else _l in
  do ratio <- py_div _l l;
  OK (mkTrim dx dy l (fst approach + dx * ratio, snd approach + dy * ratio)%Q).

Definition MapSegment_to_svg (self : MapSegment) : Result Element :=
  let start := center (from_node self) in
  let end_ := center (to_node self) in
  match metabolite_id self with
  | None => OK (mkElement "path" [("d", line_d start end_)] None [])
  | Some _ =>
      do t <- trim self;
      let end_ := trim_end t in
      let path_attrs :=
        match b1 self, b2 self with
        | Some c1, Some c2 => [("d", curve_d start c1 c2 end_)]
        | _, _ => [("d", line_d start end_)]
        end in
      let path_attrs :=
        if has_arrow self then attrib_set "marker-end" ARROWHEAD path_attrs
        else path_attrs in
      let path := mkElement "path" path_attrs None [] in
      match count self with
      | None => Raise TypeError
      | Some c =>
          let count := Qabs c in
          if Qeq_bool count 1 then OK path
          else
            let group := append (mkElement "g" [] None []) path in
            do qx <- py_div (trim_dy t) (trim_l t);
            let label_x := (fst end_ + qx * 24)%Q in
            do qy <- py_div (trim_dx t) (trim_l t);
            let label_y := (snd end_ - qy * 24)%Q in
            let stoich_label :=
              mkElement "text"
                [("class", "label stoich"); ("x", str_num label_x); ("y", str_num label_y)]
                (Some (str_num count)) [] in
            OK (append group stoich_label)
      end
  end.

(** The overrides [MapReaction.to_svg] applies to the primitive of one
    segment. *)
Definition override_arc (color : option Color) (size : option Q)
    (direction : option Q) (segment : MapSegment) (arc : Element) : Element :=
  let arc := match color with Some c => set arc "stroke" (Color_str c) | None => arc end in
  let arc := match size with Some x => set arc "stroke-width" (str_num x) | None => arc end in
  match direction, count segment with
  | Some d, Some c =>
      if Qlt_bool 0 (c * d) then set arc "marker-end" ARROWHEAD
      else set arc "marker-end" ""
  | _, _ => arc
  end.

Definition label_element (pos : Point) (txt : string) : Element :=
  mkElement "text" [("class", "label"); ("x", str_num (fst pos)); ("y", str_num (snd pos))]
    (Some txt) [].

Definition MapReaction_to_svg (scale : option Scale) (self : MapReaction)
    (value direction : option Q) : Result Element :=
  do '(color, size) <-
    match value, scale with
    | Some v, Some sc => Scale_style sc v
    | _, _ => OK (None, None)
    end;
  do arcs <- mapM (fun segment =>
                     do arc <- MapSegment_to_svg segment;
                     OK (override_arc color size direction segment arc))
                  (segments self);
  OK (mkElement "g" [("name", reaction_id self)] None
        (arcs ++ [label_element (label_pos self) (reaction_id self)])).

(** [MapMetabolite.to_svg]; raises [AttributeError] on a plain [MapNode],
    which has neither [size] nor [to_svg]. *)
Definition MapMetabolite_to_svg (scale : option Scale) (self : Node)
    (value : option Q) : Result Element :=
  match self with
  | MapNode _ _ => Raise AttributeError
  | MapMetabolite _ c mid primary lpos =>
      do radius <- Node_size self;
      let circle :=
        mkElement "circle"
          [("cx", str_num (fst c)); ("cy", str_num (snd c)); ("r", str_num radius)]
          None [] in
      do circle <-
        match value, scale with
        | Some v, Some sc =>
            do '(color, size) <- Scale_style sc v;
            OK (set (set (set circle "fill" (str_color color)) "stroke" "none")
                  "r" (str_size size))
        | _, _ => OK circle
        end;
      OK (mkElement "g" [("name", mid)] None [circle; label_element lpos mid])
  end.

(** Truthiness of an optional mapping: [None] and the empty dict are false. *)
Definition truthy_data (d : option (gmap string Q)) : bool :=
  match d with
  | None => false
  | Some m => negb (bool_decide (m = ∅))
  end.

Definition or_empty (d : option (gmap string Q)) : gmap string Q :=
  match d with None => ∅ | Some m => m end.

Definition marker_element : Element :=
  mkElement "marker"
    [("id", "arrowhead"); ("viewBox", "0 -10 13 20"); ("refX", "2"); ("refY", "0");
     ("markerUnits", "strokeWidth"); ("markerWidth", "2"); ("markerHeight", "2");
     ("orient", "auto")]
    None
    [mkElement "path" [("d", "M 0 -10 L 13 0 L 0 10 Z"); ("fill", "#334e75"); ("stroke", "none")]
       None []].

(** [EscherMap.to_svg].  The source appends each group to its parent before
    filling it; the parent then shows the filled group, which is what is
    built here. *)
Definition EscherMap_to_svg (self : EscherMap)
    (metabolite_data reaction_data reaction_direction : option (gmap string Q))
  : Result Element :=
  let svg_attrs :=
    [("width", str_dim (width self)); ("height", str_dim (height self));
     ("viewBox", str_num (fst (origin self)) ++ " " ++ str_num (snd (origin self))
                 ++ " " ++ str_num (fst (canvas_size self))
                 ++ " " ++ str_num (snd (canvas_size self)))] in
  let defs :=
    mkElement "defs" [] None
      [mkElement "style" [("type", "text/css")] (Some CSS) []; marker_element] in
  let canvas :=
    mkElement "rect"
      [("id", "canvas"); ("x", str_num (fst (origin self))); ("y", str_num (snd (origin self)));
       ("width", str_num (fst (canvas_size self)));
       ("height", str_num (snd (canvas_size self)))]
      None [] in
  let reactions_el :=
    mkElement "g"
      [("id", "reactions"); ("fill", "none"); ("stroke", RXN_STROKE); ("stroke-width", "10")]
      None [] in
  let reactions_el :=
    if truthy_data reaction_data
    then set (set reactions_el "stroke" "#eeeeee") "stroke-width" "5"
    else reactions_el in
  let reaction_data := or_empty reaction_data in
  let reaction_direction :=
    match reaction_direction with None => reaction_data | Some m => m end in
  do rxn_groups <-
    mapM (fun reaction =>
            let value := reaction_data !! reaction_id reaction in
            let direction := reaction_direction !! reaction_id reaction in
            MapReaction_to_svg (reaction_scale self) reaction value direction)
         (reactions self);
  let reactions_el := fold_left append rxn_groups reactions_el in
  let metabolites_el :=
    mkElement "g"
      [("id", "metabolites"); ("fill", MET_FILL); ("stroke", MET_STROKE); ("stroke-width", "2")]
      None [] in
  let metabolites_el :=
    if truthy_data metabolite_data
    then set (set metabolites_el "fill" "#eeeeee") "stroke" "none"
    else metabolites_el in
  let metabolite_data := or_empty metabolite_data in
  do met_groups <-
    mapM (fun metabolite =>
            let value :=
              match metabolite with
              | MapMetabolite _ _ mid _ _ => metabolite_data !! mid
              | MapNode _ _ => None
              end in
            MapMetabolite_to_svg (metabolite_scale self) metabolite value)
         (metabolites self);
  let metabolites_el := fold_left append met_groups metabolites_el in
  let root :=
    mkElement "g" [("id", "eschermap")] None [canvas; reactions_el; metabolites_el] in
  OK (mkElement "svg" svg_attrs None [defs; root]).

End Renderer.

(** ** Reading the output tree *)

(** The direct child of [e] whose [id] attribute is [i]. *)
Definition child_with_id (i : string) (e : Element) : option Element :=
  List.find (fun c => match get c "id" with
                      | Some j => String.eqb j i
                      | None => false
                      end) (children e).

(** The [marker-end] each [path] of a primitive is drawn with: its own
    attribute when it has one, else the one inherited from the enclosing
    elements ([marker-end] is an inherited SVG property). *)
Fixpoint drawn_markers (inherited : option string) (e : Element) : list (option string) :=
  match e with
  | mkElement t a _ c =>
      let m := match attrib_get "marker-end" a with
               | Some v => Some v
               | None => inherited
               end in
      (if String.eqb t "path" then [m] else []) ++ flat_map (drawn_markers m) c
  end.

Definition is_arrowhead (m : option string) : bool :=
  match m with Some v => String.eqb v ARROWHEAD | None => false end.

(** A primitive carries an arrowhead when one of its paths is drawn with
    the arrowhead marker. *)
Definition carries_arrowhead (e : Element) : bool :=
  existsb is_arrowhead (drawn_markers None e).

Definition is_stoich_label (e : Element) : bool :=
  String.eqb (tag e) "text" &&
  match get e "class" with Some c => String.eqb c "label stoich" | None => false end.

(** A primitive has a stoichiometry label when it is a group with such a
    child. *)
Definition has_stoich_label (e : Element) : bool :=
  existsb is_stoich_label (children e).

(** ** The formatting of a color as the specification words it *)



Definition two_hex (n : Z) : string :=
  String (hex_char (n / 16)) (String (hex_char (n mod 16)) EmptyString).


Definition is_lower_hex (c : ascii) : bool :=
  let n := ord c in
  (((48 <=? n) && (n <=? 57)) || ((97 <=? n) && (n <=? 102)))%nat.

(** ** Concrete parameters for running the renderer on examples *)

(** Square root to six decimals; exact on the square of a rational. *)
Definition Qsqrt (x : Q) : Q :=
  Qred (Z.sqrt (Qnum x * Zpos (Qden x) * 10 ^ 12) # (Qden x * 10 ^ 6)).

Definition str_Z (n : Z) : string := NilZero.string_of_int (Z.to_int n).

(** The digits of the fraction [n / d], [0 <= n < d], without trailing
    zeros, at most [fuel] of them. *)
Fixpoint fraction_digits (fuel : nat) (n d : Z) : string :=
  match fuel with
  | O => EmptyString
  | S fuel' =>
      if (n =? 0)%Z then EmptyString
      else str_Z (10 * n / d) ++ fraction_digits fuel' (10 * n mod d) d
  end.

(** [str(x)]: an integer prints as a Python [int]; any other number as its
    decimal expansion, to at most 17 places. *)
Definition str_Q (x : Q) : string :=
  let n := Qnum x in
  let d := Zpos (Qden x) in
  if (n mod d =? 0)%Z then str_Z (n / d)
  else
    (if (n <? 0)%Z then "-" else "")
      ++ str_Z (Z.abs n / d) ++ "." ++ fraction_digits 17 (Z.abs n mod d) d.

(** [format(x, ".1f")]: one decimal place, ties to even. *)
Definition fmt_1f_Q (x : Q) : string :=
  let n := (10 * Z.abs (Qnum x))%Z in
  let d := Zpos (Qden x) in
  let q := (n / d)%Z in
  let rem2 := (2 * (n mod d))%Z in
  let tenths :=
    if (d <? rem2)%Z then (q + 1)%Z
    else if (rem2 =? d)%Z then (if Z.even q then q else q + 1)%Z
    else q in
  (if (Qnum x <? 0)%Z then "-" else "")
    ++ str_Z (tenths / 10) ++ "." ++ str_Z (tenths mod 10).

(** ** Definitions used in the statements *)

Definition hex_chars : list ascii := list_ascii_of_string "0123456789abcdefABCDEF".
Definition lower_hex_chars : list ascii := list_ascii_of_string "0123456789abcdef".

Definition str2 (a b : ascii) : string := String a (String b EmptyString).


(** Two lowercase hex digits parse to the byte that prints as them. *)
Definition pair_roundtrips (a b : ascii) : bool :=
  match int16 (str2 a b) with
  | OK n => ((0 <=? n) && (n <=? 255))%Z && String.eqb (two_hex n) (str2 a b)
  | Raise _ => false
  end.

Definition hex_string (d1 d2 d3 d4 d5 d6 : ascii) : string :=
  String "#" (String d1 (String d2 (String d3 (String d4 (String d5 (String d6 EmptyString)))))).


Definition value_le (s t : Stop) : Prop := (stop_value s <= stop_value t)%Q.
Definition value_lt (s t : Stop) : Prop := (stop_value s < stop_value t)%Q.


Definition two_stops : list StopItem :=
  [(100, (Some "#ff0000", Some 25)); (0, (Some "#c8c8c8", Some 12))]%Q.

(** The value [style] works on. *)
Definition style_value (sc : Scale) (v : Q) : Q :=
  if use_abs sc then Qabs v else v.

(** The style interpolated between two stops, as the code computes it: the
    size is dropped when one of the two sizes is absent or zero. *)
Definition interpolate (lb ub : Stop) (v : Q) : option Color * option Q :=
  let p := ((v - stop_value lb) / (stop_value ub - stop_value lb))%Q in
  (match stop_color lb, stop_color ub with
   | Some cl, Some cu => Some (blend_color p cu cl)
   | _, _ => None
   end,
   match stop_size lb, stop_size ub with
   | Some sl, Some su =>
       if truthy_num sl && truthy_num su then Some (blend_size p su sl) else None
   | _, _ => None
   end).

(** The endpoints and control points of a segment built from [sj], whose
    [from] and [to] ids resolve to [n_from] and [n_to]: swapped when the
    [from] node is a metabolite. *)
Definition oriented (sj : SegmentJson) (n_from n_to : Node)
  : Node * Node * option Point * option Point :=
  if is_metabolite n_from then (n_to, n_from, seg_b2 sj, seg_b1 sj)
  else (n_from, n_to, seg_b1 sj, seg_b2 sj).

Definition met_node_json (bigg : string) (x0 y0 : Q) : NodeJson :=
  mkNodeJson "metabolite" x0 y0 (Some bigg) (Some true) (Some x0) (Some y0).

Definition marker_node_json (kind : string) (x0 y0 : Q) : NodeJson :=
  mkNodeJson kind x0 y0 None None None None.

Definition pair_map : MapJson :=
  mkMapJson 0 0 100 100
    [("n1", met_node_json "a" 0 0); ("n2", met_node_json "b" 30 40)]
    [("r1", mkReactionJson "R" [("a", (-1)%Q); ("b", 1%Q)] false 10 10
              [("s1", mkSegmentJson "n1" "n2" None None)])].

(** A small map: metabolite [a] at [n1], markers at [n2] and [n3],
    metabolite [b] at [n4], and one reaction [R] through them; the first
    segment names the metabolite as its [from] node. *)
Definition simple_map (coeff_a coeff_b : Q) (rev : bool) : MapJson :=
  mkMapJson 0 0 200 200
    [("n1", met_node_json "a" 0 0);
     ("n2", marker_node_json "multimarker" 30 40);
     ("n3", marker_node_json "midmarker" 60 80);
     ("n4", met_node_json "b" 90 120)]
    [("r1", mkReactionJson "R" [("a", coeff_a); ("b", coeff_b)] rev 50 50
              [("s1", mkSegmentJson "n1" "n2" None None);
               ("s2", mkSegmentJson "n2" "n3" None None);
               ("s3", mkSegmentJson "n3" "n4" None None)])].

(** The [path] of a metabolite segment, with its arrowhead when the segment
    has one. *)
Definition segment_path (d_attr : string) (arrow : bool) : Element :=
  mkElement "path"
    (if arrow then [("d", d_attr); ("marker-end", ARROWHEAD)] else [("d", d_attr)])
    None [].

Definition stoich_label (x y txt : string) : Element :=
  mkElement "text" [("class", "label stoich"); ("x", x); ("y", y)] (Some txt) [].

(** The geometry of a metabolite-ending segment as the specification words
    it, for a node radius [radius]. *)
Section SegmentGeometry.

Variable sqrt : Q -> Q.
Variable seg : MapSegment.
Variable radius : Q.

Definition approach : Point :=
  match b2 seg with Some p => p | None => center (from_node seg) end.
Definition seg_dx : Q := fst (center (to_node seg)) - fst approach.
Definition seg_dy : Q := snd (center (to_node seg)) - snd approach.
Definition seg_L : Q := sqrt (seg_dx * seg_dx + seg_dy * seg_dy).
Definition padding : Q := if has_arrow seg then 20 else 10.
Definition trimmed_length : Q :=
  if Qlt_bool (seg_L - radius - padding) 5 then seg_L - radius
  else seg_L - radius - padding.
Definition new_end : Point :=
  (fst approach + seg_dx * (trimmed_length / seg_L),
   snd approach + seg_dy * (trimmed_length / seg_L))%Q.
Definition stoich_label_pos : Point :=
  (fst new_end + seg_dy / seg_L * 24, snd new_end - seg_dx / seg_L * 24)%Q.

End SegmentGeometry.

(** The segment of [simple_map] that ends at metabolite [b], for a
    coefficient [c] of [b] in a reaction that is not reversible. *)
Definition segment_b (c : Q) : MapSegment :=
  mkMapSegment (MapNode "n3" (60, 80)%Q) (MapMetabolite "n4" (90, 120)%Q "b" true (90, 120)%Q)
    None None (Some "b") (Some c) (Qlt_bool 0 c).

(** The primitive of a metabolite segment. *)
Definition segment_primitive (d_attr x y txt : string) (arrow grouped : bool) : Element :=
  if grouped
  then mkElement "g" [] None [segment_path d_attr arrow; stoich_label x y txt]
  else segment_path d_attr arrow.

(** The model built from [simple_map (-1) 2 false]. *)
Definition simple_em : EscherMap :=
  mkEscherMap None None None None (0, 0)%Q (200, 200)%Q
    [MapMetabolite "n1" (0, 0)%Q "a" true (0, 0)%Q;
     MapMetabolite "n4" (90, 120)%Q "b" true (90, 120)%Q]
    [mkMapReaction "R" (stoich_of [("a", (-1)%Q); ("b", 2%Q)]) false (50, 50)%Q
       [mkMapSegment (MapNode "n2" (30, 40)%Q)
          (MapMetabolite "n1" (0, 0)%Q "a" true (0, 0)%Q)
          None None (Some "a") (Some (-1)%Q) false;
        mkMapSegment (MapNode "n2" (30, 40)%Q) (MapNode "n3" (60, 80)%Q)
          None None None None false;
        segment_b 2]].

(** ** Definitions used in the further properties *)

(** Equality of colors as numbers, channel by channel. *)
Definition Color_eq (c1 c2 : Color) : Prop :=
  (r c1 == r c2)%Q /\ (g c1 == g c2)%Q /\ (b c1 == b c2)%Q.


(** The keys of a mapping are pairwise different numbers. *)
Fixpoint distinct_keys (items : list StopItem) : Prop :=
  match items with
  | [] => True
  | item :: items' =>
      Forall (fun item' => ~ (fst item' == fst item)%Q) items' /\ distinct_keys items'
  end.


(** A scale [style] works on without raising: two or more stops of
    increasing values. *)
Definition increasing_scale (sc : Scale) : Prop :=
  StronglySorted value_lt (stops sc) /\ (2 <= List.length (stops sc))%nat.

Definition stop_style (s : Stop) : option Color * option Q :=
  (stop_color s, stop_size s).



Definition ascii_lower (c : ascii) : ascii :=
  let n := ord c in
  if ((65 <=? n) && (n <=? 90))%nat then chr (n + 32) else c.

Definition all_ascii : list ascii := map ascii_of_nat (seq 0 256).

(** Every two-character string that [int(s, 16)] accepts has a value from
    -15 to 255. *)
Definition pair_value_bounded (a c : ascii) : bool :=
  match int16 (str2 a c) with
  | OK n => ((-15 <=? n) && (n <=? 255))%Z
  | Raise _ => true
  end.

(** Two hex digits of either case parse to the byte that prints as their
    lowercase. *)
Definition pair_lowercases (a c : ascii) : bool :=
  match int16 (str2 a c) with
  | OK n => ((0 <=? n) && (n <=? 255))%Z
            && String.eqb (two_hex n) (str2 (ascii_lower a) (ascii_lower c))
  | Raise _ => false
  end.

(** The node entries of the document that declare a metabolite. *)
Definition is_metabolite_json (kv : string * NodeJson) : bool :=
  String.eqb (node_type (snd kv)) "metabolite".

Definition node_of_item (kv : string * NodeJson) : Result Node :=
  Node_init (fst kv) (snd kv).

(** The fields [MapSegment.__init__] derives, for a segment of a reaction
    with stoichiometry [st] and reversibility [rev]. *)
Definition derived_fields (st : gmap string Q) (rev : bool) (seg : MapSegment) : Prop :=
  match to_node seg with
  | MapMetabolite _ _ m _ _ =>
      metabolite_id seg = Some m /\
      exists c, st !! m = Some c /\ count seg = Some c /\
                has_arrow seg = Qlt_bool 0 c || rev
  | MapNode _ _ =>
      metabolite_id seg = None /\ count seg = None /\ has_arrow seg = false
  end.


Definition dangling_map : MapJson :=
  mkMapJson 0 0 100 100
    [("n1", met_node_json "a" 0 0)]
    [("r1", mkReactionJson "R" [("a", 1%Q)] false 10 10
              [("s1", mkSegmentJson "n9" "n1" None None)])].

Definition simple_rxn : MapReaction :=
  mkMapReaction "R" (stoich_of [("a", (-1)%Q); ("b", 2%Q)]) false (50, 50)%Q
    [mkMapSegment (MapNode "n2" (30, 40)%Q)
       (MapMetabolite "n1" (0, 0)%Q "a" true (0, 0)%Q)
       None None (Some "a") (Some (-1)%Q) false;
     mkMapSegment (MapNode "n2" (30, 40)%Q) (MapNode "n3" (60, 80)%Q)
       None None None None false;
     segment_b 2].

(** The sub-group of a reaction: a group named by the reaction id holding
    one primitive per segment, then the label. *)
Definition reaction_group (str_num : Q -> string) (rxn : MapReaction) (grp : Element) : Prop :=
  tag grp = "g" /\ attrib grp = [("name", reaction_id rxn)] /\
  exists arcs,
    children grp = (arcs ++ [label_element str_num (label_pos rxn) (reaction_id rxn)])%list /\
    List.length arcs = List.length (segments rxn).

(** The sub-group of a metabolite: a group named by the metabolite id
    holding a circle, then the label. *)
Definition metabolite_group (str_num : Q -> string) (n : Node) (grp : Element) : Prop :=
  match n with
  | MapMetabolite _ _ m _ lpos =>
      tag grp = "g" /\ attrib grp = [("name", m)] /\
      exists circle,
        tag circle = "circle" /\ children grp = [circle; label_element str_num lpos m]
  | MapNode _ _ => False
  end.

Definition two_stops_scale : Scale :=
  mkScale [mkStop 0 (Some (mkColor 200 200 200)) (Some 12%Q);
           mkStop 100 (Some (mkColor 255 0 0)) (Some 25%Q)] false.


(** ** Definitions used in the statements on construction and formatting *)





(** * Properties *)

(** ** Helper lemmas on results *)

Lemma bind_OK {A B : Type} (m : Result A) (k : A -> Result B) (y : B) :
  bind m k = OK y -> exists x, m = OK x /\ k x = OK y.
Proof. destruct m as [x|e]; simpl; intros H; [eauto | discriminate]. Qed.

Lemma mapM_In {A B : Type} (f : A -> Result B) (l : list A) (l' : list B) :
  mapM f l = OK l' -> forall y, In y l' -> exists x, In x l /\ f x = OK y.
Proof.
  revert l'. induction l as [|x l IH]; simpl; intros l' H y Hy.
  - injection H as <-. destruct Hy.
  - apply bind_OK in H as (z & Hz & H). apply bind_OK in H as (zs & Hzs & H).
    injection H as <-. destruct Hy as [<-|Hy].
    + exists x. auto.
    + destruct (IH _ Hzs _ Hy) as (x' & Hin & Hx'). exists x'. auto.
Qed.

Lemma mapM_succeeds {A B : Type} (f : A -> Result B) (l : list A) :
  succeeds (mapM f l) = forallb (fun x => succeeds (f x)) l.
Proof.
  induction l as [|x l IH]; simpl; [reflexivity|].
  destruct (f x) as [y|e]; simpl; [|reflexivity].
  rewrite <- IH. destruct (mapM f l); reflexivity.
Qed.

Lemma mapM_Raise {A B : Type} (f : A -> Result B) (l : list A) (e : Exn) :
  mapM f l = Raise e -> exists x, In x l /\ f x = Raise e.
Proof.
  induction l as [|x l IH]; simpl; [discriminate|].
  destruct (f x) as [y|e'] eqn:Ex; simpl.
  - destruct (mapM f l) as [ys|e'']; simpl; [discriminate|].
    intros H. injection H as <-. destruct (IH eq_refl) as (x' & Hin & Hx').
    exists x'. auto.
  - intros H. injection H as <-. exists x. auto.
Qed.

(** ** Color: parsing and formatting *)

Lemma is_hex_digit_In (c : ascii) : is_hex_digit c = true -> In c hex_chars.
Proof.
  destruct c as [[] [] [] [] [] [] [] []]; intros H;
    vm_compute in H; try discriminate H; vm_compute; tauto.
Qed.

Lemma is_lower_hex_In (c : ascii) : is_lower_hex c = true -> In c lower_hex_chars.
Proof.
  destruct c as [[] [] [] [] [] [] [] []]; intros H;
    vm_compute in H; try discriminate H; vm_compute; tauto.
Qed.


Lemma int16_lower_hex_pair (a b : ascii) :
  is_lower_hex a = true -> is_lower_hex b = true ->
  exists n, int16 (str2 a b) = OK n /\ (0 <= n <= 255)%Z /\ two_hex n = str2 a b.
Proof.
  intros Ha Hb. apply is_lower_hex_In in Ha, Hb.
  assert (H : forallb (fun x => forallb (pair_roundtrips x) lower_hex_chars)
                lower_hex_chars = true)
    by (vm_compute; reflexivity).
  rewrite forallb_forall in H. specialize (H a Ha).
  rewrite forallb_forall in H. specialize (H b Hb).
  unfold pair_roundtrips in H. destruct (int16 (str2 a b)) as [n|]; [|discriminate].
  apply andb_prop in H as [Hr He]. apply String.eqb_eq in He.
  exists n. split; [reflexivity|]. split; [lia | exact He].
Qed.

Lemma format_02x_byte (n : Z) : (0 <= n <= 255)%Z -> format_02x n = two_hex n.
Proof.
  intros Hn.
  assert (H : forallb (fun k => String.eqb (format_02x (Z.of_nat k)) (two_hex (Z.of_nat k)))
                (seq 0 256) = true)
    by (vm_compute; reflexivity).
  rewrite forallb_forall in H. specialize (H (Z.to_nat n)).
  rewrite Z2Nat.id in H by lia. apply String.eqb_eq, H, in_seq. lia.
Qed.


Lemma py_int_round_byte (n : Z) : (0 <= n)%Z -> py_int (inject_Z n + (1 # 2)) = n.
Proof.
  intros Hn. unfold py_int, inject_Z, Qplus. simpl.
  rewrite Z.quot_div_nonneg by lia.
  symmetry. apply (Z.div_unique (n * 2 + 1) 2 n 1); lia.
Qed.

Lemma Color_from_hex_rejects (s : string) :
  startswith "#" s = false \/ String.length s <> 7%nat ->
  Color_from_hex s = Raise ValueError.
Proof.
  intros [H|H]; unfold Color_from_hex.
  - rewrite H. reflexivity.
  - apply Nat.eqb_neq in H. rewrite H, andb_false_r. reflexivity.
Qed.



(** C5 (the code departs from it): [from_hex] accepts a string of seven
    characters starting with [#] whose other six characters are not all
    hexadecimal digits, because [int(s, 16)] accepts a sign; the red channel
    it returns is negative, outside 0..255. *)
Theorem Color_from_hex_accepts_sign :
  String.length "#-10000" = 7%nat /\
  forallb is_hex_digit (list_ascii_of_string (slice_from 1 "#-10000")) = false /\
  Color_from_hex "#-10000" = OK (mkColor (-1) 0 0) /\
  (r (mkColor (-1) 0 0) < 0)%Q.
Proof. repeat split. Qed.












(** C7: formatting the color parsed from ["#1a2b3c"] gives ["#1a2b3c"] back,
    and so does every string of seven characters made of [#] and six
    lowercase hexadecimal digits. *)
Theorem Color_roundtrip :
  bind (Color_from_hex "#1a2b3c") (fun c => OK (Color_str c)) = OK "#1a2b3c" /\
  forall s rest : string,
    s = String "#" rest ->
    String.length rest = 6%nat ->
    forallb is_lower_hex (list_ascii_of_string rest) = true ->
    bind (Color_from_hex s) (fun c => OK (Color_str c)) = OK s.
Proof.
  split; [reflexivity|].
  intros s rest -> Hlen Hhex.
  destruct rest as [|d1 [|d2 [|d3 [|d4 [|d5 [|d6 [|]]]]]]]; try discriminate Hlen.
  simpl in Hhex. repeat (apply andb_prop in Hhex as [? Hhex]).
  destruct (int16_lower_hex_pair d1 d2) as (n1 & E1 & R1 & P1); [assumption..|].
  destruct (int16_lower_hex_pair d3 d4) as (n2 & E2 & R2 & P2); [assumption..|].
  destruct (int16_lower_hex_pair d5 d6) as (n3 & E3 & R3 & P3); [assumption..|].
  unfold Color_from_hex, slice, slice_from, startswith. simpl.
  unfold str2 in E1, E2, E3. rewrite E1, E2, E3. simpl.
  unfold Color_str. simpl r; simpl g; simpl b.
  rewrite !py_int_round_byte by lia.
  rewrite !format_02x_byte by lia.
  rewrite P1, P2, P3. reflexivity.
Qed.

Lemma Color_roundtrip_witness :
  bind (Color_from_hex "#c0ffee") (fun c => OK (Color_str c)) = OK "#c0ffee".
Proof.
  apply (proj2 Color_roundtrip "#c0ffee" "c0ffee"); reflexivity.
Defined.

(** ** Scale: construction *)

Lemma Qle_bool_false (x y : Q) : Qle_bool x y = false -> (y < x)%Q.
Proof.
  intros H. apply Qnot_le_lt. intros Hle.
  apply Qle_bool_iff in Hle. congruence.
Qed.

Lemma Qlt_bool_false (x y : Q) : (y <= x)%Q -> Qlt_bool x y = false.
Proof.
  intros H. unfold Qlt_bool. apply Qle_bool_iff in H. rewrite H. reflexivity.
Qed.

Lemma Qlt_bool_true (x y : Q) : (x < y)%Q -> Qlt_bool x y = true.
Proof.
  intros H. unfold Qlt_bool. destruct (Qle_bool y x) eqn:E; [|reflexivity].
  apply Qle_bool_iff in E. exfalso. apply (Qlt_not_le _ _ H E).
Qed.

Lemma insert_stop_perm (s : Stop) (l : list Stop) :
  Permutation (s :: l) (insert_stop s l).
Proof.
  induction l as [|t l IH]; simpl; [reflexivity|].
  destruct (Qle_bool (stop_value s) (stop_value t)); [reflexivity|].
  rewrite perm_swap. apply perm_skip, IH.
Qed.


Lemma insert_stop_sorted (s : Stop) (l : list Stop) :
  StronglySorted value_le l -> StronglySorted value_le (insert_stop s l).
Proof.
  induction 1 as [|t l Hs IH Hall]; simpl.
  - repeat constructor.
  - destruct (Qle_bool (stop_value s) (stop_value t)) eqn:E.
    + apply Qle_bool_iff in E. constructor.
      * constructor; assumption.
      * constructor; [exact E|].
        rewrite List.Forall_forall in *. intros u Hu.
        unfold value_le in *. specialize (Hall u Hu). lra.
    + apply Qle_bool_false in E. constructor; [exact IH|].
      rewrite List.Forall_forall in *. intros u Hu.
      apply (Permutation_in _ (Permutation_sym (insert_stop_perm s l))) in Hu.
      destruct Hu as [<-|Hu]; [unfold value_le; lra | auto].
Qed.

Lemma sorted_by_value_sorted (l : list Stop) : StronglySorted value_le (sorted_by_value l).
Proof.
  induction l as [|s l IH]; simpl; [constructor | apply insert_stop_sorted, IH].
Qed.







(** ** Scale: styling *)

Lemma last_cons_default {A : Type} (x d : A) (l : list A) :
  List.last (x :: l) d = List.last l x.
Proof.
  revert x d. induction l as [|y l IH]; intros x d; [reflexivity|].
  change (List.last (x :: y :: l) d) with (List.last (y :: l) d).
  rewrite (IH y d). symmetry. apply IH.
Qed.

(** The scan stops at the first stop, after the first one, whose value is at
    least [v]; the lower bracket is the stop just before it. *)
Lemma bracket_finds (v : Q) (lb0 : Stop) (ub0 : option Stop) (mid : list Stop)
    (ub : Stop) (back : list Stop) :
  (forall s, In s mid -> (stop_value s < v)%Q) ->
  (v <= stop_value ub)%Q ->
  bracket v lb0 ub0 (mid ++ ub :: back)%list = (List.last mid lb0, Some ub).
Proof.
  revert lb0 ub0. induction mid as [|s mid IH]; intros lb0 ub0 Hmid Hub; simpl.
  - apply Qle_bool_iff in Hub. rewrite Hub. reflexivity.
  - assert (Hs : Qle_bool v (stop_value s) = false).
    { destruct (Qle_bool v (stop_value s)) eqn:E; [|reflexivity].
      apply Qle_bool_iff in E. specialize (Hmid s (or_introl eq_refl)). lra. }
    rewrite Hs, IH by (intros; auto using in_cons).
    f_equal. destruct mid; [reflexivity|].
    rewrite last_cons_default. symmetry. apply last_cons_default.
Qed.



(** C1 (the code departs from it): with a size of 0 at the stop of value 0
    and a size of 10 at the stop of value 10, both bracketing stops of 5
    define a size and the blend is 5, but [style(5)] returns no size: the
    test on the sizes is a truth test, and 0 is false.  The color is blended
    as documented. *)
Theorem Scale_style_drops_zero_size :
  exists sc,
    Scale_init [(0, (Some "#000000", Some 0)); (10, (Some "#ffffff", Some 10))]%Q false
      = OK sc /\
    stops sc = [mkStop 0 (Some (mkColor 0 0 0)) (Some 0%Q);
                mkStop 10 (Some (mkColor 255 255 255)) (Some 10%Q)] /\
    (blend_size (1 # 2) 10 0 == 5)%Q /\
    exists c, Scale_style sc 5 = OK (Some c, None) /\
      (r c == 255 # 2)%Q /\ (g c == 255 # 2)%Q /\ (b c == 255 # 2)%Q.
Proof.
  eexists. split; [reflexivity|]. split; [reflexivity|]. split; [reflexivity|].
  eexists. split; [vm_compute; reflexivity|]. repeat split.
Qed.

(** ** The map model: orientation of the segments *)

Lemma MapSegment_init_oriented (st : gmap string Q) (rev : bool)
    (sj : SegmentJson) (all_nodes : gmap string Node) (seg : MapSegment) :
  MapSegment_init st rev sj all_nodes = OK seg ->
  exists n_from n_to,
    all_nodes !! from_node_id sj = Some n_from /\
    all_nodes !! to_node_id sj = Some n_to /\
    (from_node seg, to_node seg, b1 seg, b2 seg) = oriented sj n_from n_to /\
    (is_metabolite n_from || is_metabolite n_to = is_metabolite (to_node seg)) /\
    (is_metabolite (to_node seg) = true <-> metabolite_id seg <> None).
Proof.
  unfold MapSegment_init. intros H.
  apply bind_OK in H as (n_from & Hf & H). apply bind_OK in H as (n_to & Ht & H).
  exists n_from, n_to.
  destruct (all_nodes !! from_node_id sj) as [x|]; [|discriminate Hf].
  destruct (all_nodes !! to_node_id sj) as [y|]; [|discriminate Ht].
  injection Hf as ->. injection Ht as ->.
  split; [reflexivity|]. split; [reflexivity|].
  unfold oriented.
  destruct n_from as [kf cf|kf cf mf pf lf], n_to as [kt ct|kt ct mt pt lt];
    simpl in H |- *;
    try (apply bind_OK in H as (c & _ & H));
    injection H as <-; simpl;
    (split; [reflexivity|]); (split; [reflexivity|]);
    split; intros; congruence.
Qed.

(** C3 fails as stated: a segment from metabolite node [n1] to metabolite
    node [n2] is built with [n2] as [from] and [n1] as [to]; the metabolite
    [n2] is an endpoint of the segment and is not its [to] endpoint. *)
Lemma metabolite_pair_not_normalized :
  exists em rxn seg,
    EscherMap_init pair_map None None None None = OK em /\
    reactions em = [rxn] /\ segments rxn = [seg] /\
    is_metabolite (from_node seg) = true /\
    node_ref (from_node seg) = "n2" /\ node_ref (to_node seg) = "n1" /\
    from_node seg <> to_node seg.
Proof.
  do 3 eexists. split; [vm_compute; reflexivity|].
  repeat split. discriminate.
Qed.

(** C3, amended: after construction, every segment of every reaction comes
    from a segment of the source whose node ids resolve in the node table;
    its endpoints and control points are those of the source, swapped
    (from with to, b1 with b2) when the source's [from] node is a
    metabolite.  Hence a segment that has a metabolite at either end has a
    metabolite as its [to] endpoint, and a metabolite is left at [from] only
    when both ends are metabolites. *)
Theorem segments_oriented (map_json : MapJson) (w h : option Dim)
    (rs ms : option Scale) (em : EscherMap) :
  EscherMap_init map_json w h rs ms = OK em ->
  exists all_nodes mets,
    build_nodes (nodes map_json) ∅ [] = OK (all_nodes, mets) /\
    forall rxn seg,
      In rxn (reactions em) -> In seg (segments rxn) ->
      exists rj sj n_from n_to,
        In rj (map snd (reactions_json map_json)) /\
        In sj (map snd (rxn_segments rj)) /\
        all_nodes !! from_node_id sj = Some n_from /\
        all_nodes !! to_node_id sj = Some n_to /\
        (from_node seg, to_node seg, b1 seg, b2 seg) = oriented sj n_from n_to /\
        (is_metabolite (from_node seg) || is_metabolite (to_node seg)
           = is_metabolite (to_node seg)) /\
        (is_metabolite (from_node seg) = true ->
           is_metabolite n_from = true /\ is_metabolite n_to = true).
Proof.
  unfold EscherMap_init. intros H.
  apply bind_OK in H as ([all_nodes mets] & Hn & H).
  apply bind_OK in H as (rxns & Hr & H). injection H as <-. simpl.
  exists all_nodes, mets. split; [exact Hn|].
  intros rxn seg Hrxn Hseg.
  destruct (mapM_In _ _ _ Hr _ Hrxn) as ([k rj] & Hrin & Hrj).
  unfold MapReaction_init in Hrj. simpl in Hrj.
  apply bind_OK in Hrj as (segs & Hs & Hrj). injection Hrj as <-.
  simpl in Hseg.
  destruct (mapM_In _ _ _ Hs _ Hseg) as ([k' sj] & Hsin & Hsj). simpl in Hsj.
  apply (in_map snd) in Hrin, Hsin. simpl in Hrin, Hsin.
  destruct (MapSegment_init_oriented _ _ _ _ _ Hsj)
    as (n_from & n_to & Hf & Ht & Ho & Hm & _).
  exists rj, sj, n_from, n_to.
  split; [exact Hrin|]. split; [exact Hsin|].
  split; [exact Hf|]. split; [exact Ht|]. split; [exact Ho|].
  unfold oriented in Ho.
  destruct (is_metabolite n_from) eqn:Ef; injection Ho as E1 E2 _ _; rewrite E1, E2.
  - rewrite Ef, orb_true_r. split; [reflexivity|].
    intros Hx. split; [reflexivity | exact Hx].
  - rewrite Ef. split; [reflexivity|]. intros Hx. discriminate Hx.
Qed.

Lemma segments_oriented_witness :
  exists em rxn seg,
    EscherMap_init (simple_map (-1) 2 false) None None None None = OK em /\
    In rxn (reactions em) /\ In seg (segments rxn) /\
    node_ref (from_node seg) = "n2" /\ node_ref (to_node seg) = "n1" /\
    (is_metabolite (from_node seg) || is_metabolite (to_node seg)
       = is_metabolite (to_node seg)).
Proof.
  eexists. eexists. eexists.
  split; [vm_compute; reflexivity|].
  split; [left; reflexivity|]. split; [left; reflexivity|].
  split; [reflexivity|]. split; [reflexivity|].
  destruct (segments_oriented (simple_map (-1) 2 false) None None None None _ eq_refl)
    as (all_nodes & mets & _ & Hall).
  destruct (Hall _ _ (or_introl eq_refl) (or_introl eq_refl))
    as (rj & sj & n_from & n_to & _ & _ & _ & _ & _ & Hm & _).
  exact Hm.
Defined.

(** ** The renderer: segments *)

Lemma attrib_get_set_eq (k v : string) (a : list (string * string)) :
  attrib_get k (attrib_set k v a) = Some v.
Proof.
  induction a as [|[k' v'] a IH]; simpl.
  - rewrite String.eqb_refl. reflexivity.
  - destruct (String.eqb k' k) eqn:E; simpl; rewrite E; [reflexivity | exact IH].
Qed.

Lemma attrib_get_set_ne (k k' v : string) (a : list (string * string)) :
  k <> k' -> attrib_get k (attrib_set k' v a) = attrib_get k a.
Proof.
  intros Hne. induction a as [|[k0 v0] a IH]; simpl.
  - apply String.eqb_neq in Hne. rewrite String.eqb_sym, Hne. reflexivity.
  - destruct (String.eqb k0 k') eqn:E; simpl.
    + apply String.eqb_eq in E. subst k0.
      apply not_eq_sym, String.eqb_neq in Hne. rewrite Hne. reflexivity.
    + rewrite IH. reflexivity.
Qed.

Section Segments.

Variable sqrt : Q -> Q.
Variable str_num : Q -> string.
Variable fmt_1f : Q -> string.

(** The primitive of a metabolite segment is its path when the absolute
    count is 1, and else a group of the path and a label. *)
Lemma MapSegment_to_svg_shape (seg : MapSegment) (mid : string) (c : Q) (arc : Element) :
  metabolite_id seg = Some mid -> count seg = Some c ->
  MapSegment_to_svg sqrt str_num fmt_1f seg = OK arc ->
  exists d_attr x y,
    arc = if Qeq_bool (Qabs c) 1 then segment_path d_attr (has_arrow seg)
          else mkElement "g" [] None
                 [segment_path d_attr (has_arrow seg);
                  stoich_label x y (str_num (Qabs c))].
Proof.
  intros Hm Hc H. unfold MapSegment_to_svg in H. rewrite Hm, Hc in H.
  apply bind_OK in H as (t & Ht & H).
  destruct (Qeq_bool (Qabs c) 1).
  - injection H as <-. unfold segment_path.
    destruct (b1 seg), (b2 seg), (has_arrow seg);
      eexists; exists "", ""; reflexivity.
  - apply bind_OK in H as (qx & _ & H). apply bind_OK in H as (qy & _ & H).
    injection H as <-. unfold segment_path, stoich_label.
    destruct (b1 seg), (b2 seg), (has_arrow seg); do 3 eexists; reflexivity.
Qed.

Lemma trim_geometry (seg : MapSegment) (radius : Q) :
  Node_size (to_node seg) = OK radius ->
  Qeq_bool (seg_L sqrt seg) 0 = false ->
  trim sqrt seg
    = OK (mkTrim (seg_dx seg) (seg_dy seg) (seg_L sqrt seg) (new_end sqrt seg radius)).
Proof.
  intros Hr Hl. unfold trim. rewrite Hr. simpl.
  fold (approach seg). fold (seg_dx seg). fold (seg_dy seg). fold (seg_L sqrt seg).
  fold (padding seg). unfold py_div. rewrite Hl. simpl.
  unfold new_end, trimmed_length.
  destruct (Qlt_bool (seg_L sqrt seg - radius - padding seg) 5); reflexivity.
Qed.

(** C8, amended: a metabolite-ending segment, rendered on its own, emits a
    stoichiometry label if and only if the absolute value of its count
    differs from 1 (so also for a fractional or zero count); the primitive
    is then a group of the path and the label, the label is positioned at
    newEnd + (dy/L, -dx/L) * 24, its text is the absolute count and its
    class is [label stoich]. *)
Theorem stoich_label_unless_unit (seg : MapSegment) (mid : string) (c radius : Q) :
  metabolite_id seg = Some mid ->
  count seg = Some c ->
  Node_size (to_node seg) = OK radius ->
  Qeq_bool (seg_L sqrt seg) 0 = false ->
  exists arc,
    MapSegment_to_svg sqrt str_num fmt_1f seg = OK arc /\
    (has_stoich_label arc = true <-> ~ (Qabs c == 1)%Q) /\
    (~ (Qabs c == 1)%Q ->
     exists d_attr,
       arc = mkElement "g" [] None
               [segment_path d_attr (has_arrow seg);
                stoich_label (str_num (fst (stoich_label_pos sqrt seg radius)))
                  (str_num (snd (stoich_label_pos sqrt seg radius)))
                  (str_num (Qabs c))]).
Proof.
  intros Hm Hc Hr Hl.
  unfold MapSegment_to_svg. rewrite Hm, Hc, (trim_geometry seg radius Hr Hl).
  simpl. unfold py_div. rewrite Hl. simpl.
  destruct (Qeq_bool (Qabs c) 1) eqn:E.
  - apply Qeq_bool_iff in E. eexists. split; [reflexivity|].
    split; [|intros Hn; contradiction].
    unfold has_stoich_label. simpl. split; [discriminate | contradiction].
  - apply Qeq_bool_neq in E. eexists. split; [reflexivity|].
    split; [split; [intros _; exact E | reflexivity]|].
    intros _. unfold segment_path, stoich_label, stoich_label_pos.
    destruct (b1 seg), (b2 seg), (has_arrow seg); eexists; reflexivity.
Qed.

End Segments.

Lemma stoich_label_unless_unit_witness :
  exists arc,
    MapSegment_to_svg Qsqrt str_Q fmt_1f_Q (segment_b 2) = OK arc /\
    (has_stoich_label arc = true <-> ~ (Qabs 2 == 1)%Q).
Proof.
  destruct (stoich_label_unless_unit Qsqrt str_Q fmt_1f_Q (segment_b 2) "b" 2 20
              eq_refl eq_refl eq_refl eq_refl) as (arc & H1 & H2 & _).
  exists arc. split; [exact H1 | exact H2].
Defined.

(** C8 fails as stated: with a coefficient of 1/2, whose absolute value is
    not greater than 1, the segment is rendered with a stoichiometry label. *)
Lemma half_count_is_labelled :
  exists em rxn s1 s2,
    EscherMap_init (simple_map (-1) (1 # 2) false) None None None None = OK em /\
    reactions em = [rxn] /\
    segments rxn = [s1; s2; segment_b (1 # 2)] /\
    MapSegment_to_svg Qsqrt str_Q fmt_1f_Q (segment_b (1 # 2))
      = OK (mkElement "g" [] None
              [segment_path "M 60.0 80.0 L 66.0 88.0" true;
               stoich_label "85.2" "73.6" "0.5"]) /\
    has_stoich_label (mkElement "g" [] None
                        [segment_path "M 60.0 80.0 L 66.0 88.0" true;
                         stoich_label "85.2" "73.6" "0.5"]) = true /\
    ~ (1 < Qabs (1 # 2))%Q.
Proof.
  do 4 eexists. split; [vm_compute; reflexivity|].
  split; [reflexivity|]. split; [reflexivity|].
  split; [vm_compute; reflexivity|]. split; [reflexivity|].
  intros H. discriminate H.
Qed.

(** ** The renderer: direction overrides *)

Section Overrides.

Variable str_num : Q -> string.

(** With a direction [d], the override sets [marker-end] on the primitive
    itself: to the arrowhead when [c * d > 0], to the empty string
    otherwise.  When the primitive is a group, the path inside keeps its
    own arrowhead. *)
Lemma override_arc_marker (color : option Color) (size : option Q) (d c : Q)
    (seg : MapSegment) (d_attr x y txt : string) (grouped : bool) :
  count seg = Some c ->
  let arc := override_arc str_num color size (Some d) seg
               (segment_primitive d_attr x y txt (has_arrow seg) grouped) in
  get arc "marker-end" = Some (if Qlt_bool 0 (c * d) then ARROWHEAD else "") /\
  carries_arrowhead arc = Qlt_bool 0 (c * d) || (has_arrow seg && grouped).
Proof.
  intros Hc. unfold override_arc, segment_primitive. rewrite Hc.
  destruct color, size, grouped, (has_arrow seg), (Qlt_bool 0 (c * d));
    split; reflexivity.
Qed.

End Overrides.

(** C4 (the code departs from it): in a reaction rendered with direction -1,
    the segment of count 2 has [count * direction <= 0] and a static
    arrowhead ([count > 0]).  Its primitive is a group, the override puts an
    empty [marker-end] on the group, and the path inside keeps its arrowhead:
    the arrowhead is not suppressed. *)
Theorem direction_override_misses_grouped_path :
  exists em rxn s1 s2 a1 a2 a3 lbl,
    EscherMap_init (simple_map (-1) 2 false) None None None None = OK em /\
    reactions em = [rxn] /\
    segments rxn = [s1; s2; segment_b 2] /\
    has_arrow (segment_b 2) = true /\
    Qlt_bool 0 (2 * -1) = false /\
    MapReaction_to_svg Qsqrt str_Q fmt_1f_Q None rxn None (Some (-1)%Q)
      = OK (mkElement "g" [("name", "R")] None [a1; a2; a3; lbl]) /\
    a3 = mkElement "g" [("marker-end", "")] None
           [segment_path "M 60.0 80.0 L 66.0 88.0" true;
            stoich_label "85.2" "73.6" "2"] /\
    carries_arrowhead a3 = true.
Proof.
  do 8 eexists. split; [vm_compute; reflexivity|].
  split; [reflexivity|]. split; [reflexivity|].
  split; [reflexivity|]. split; [reflexivity|].
  split; [vm_compute; reflexivity|]. split; reflexivity.
Qed.

Section Directions.

Variable sqrt : Q -> Q.
Variable str_num : Q -> string.
Variable fmt_1f : Q -> string.

(** What the direction rule achieves on a rendered metabolite segment: the
    primitive carries an arrowhead when [c * d > 0], and also when the
    segment has a static arrowhead and a label. *)
Lemma direction_rule_on_segment (color : option Color) (size : option Q) (d c : Q)
    (seg : MapSegment) (mid : string) (arc : Element) :
  metabolite_id seg = Some mid -> count seg = Some c ->
  MapSegment_to_svg sqrt str_num fmt_1f seg = OK arc ->
  carries_arrowhead (override_arc str_num color size (Some d) seg arc)
    = Qlt_bool 0 (c * d) || (has_arrow seg && negb (Qeq_bool (Qabs c) 1)).
Proof.
  intros Hm Hc H.
  destruct (MapSegment_to_svg_shape _ _ _ _ _ _ _ Hm Hc H) as (d_attr & x & y & ->).
  destruct (Qeq_bool (Qabs c) 1); simpl negb.
  - exact (proj2 (override_arc_marker str_num color size d c seg d_attr x y
                    (str_num (Qabs c)) false Hc)).
  - exact (proj2 (override_arc_marker str_num color size d c seg d_attr x y
                    (str_num (Qabs c)) true Hc)).
Qed.

(** Without a direction mapping, the reaction values are the directions. *)
Lemma values_are_default_directions (em : EscherMap)
    (metabolite_data reaction_data : option (gmap string Q)) :
  EscherMap_to_svg sqrt str_num fmt_1f em metabolite_data reaction_data None
    = EscherMap_to_svg sqrt str_num fmt_1f em metabolite_data reaction_data
        (Some (or_empty reaction_data)).
Proof. reflexivity. Qed.

Lemma fold_append_attrib (l : list Element) (e : Element) :
  attrib (fold_left append l e) = attrib e.
Proof.
  revert e. induction l as [|c l IH]; intros e; simpl; [reflexivity|].
  rewrite IH. destruct e; reflexivity.
Qed.

Lemma truthy_data_spec (d : option (gmap string Q)) :
  truthy_data d = true <-> exists m, d = Some m /\ m <> ∅.
Proof.
  unfold truthy_data. destruct d as [m|].
  - rewrite negb_true_iff, bool_decide_eq_false. split.
    + intros H. exists m. auto.
    + intros (m' & E & H). injection E as ->. exact H.
  - split; [discriminate | intros (m & E & _); discriminate].
Qed.

(** C9, amended: the reactions group has the de-emphasized stroke
    ([#eeeeee], width 5) exactly when a non-empty reaction values mapping
    was supplied, whether or not a reaction has a value in it and whatever
    the direction mapping; otherwise, also for an empty mapping, it has the
    standard stroke.  Independently, the metabolites group has the
    de-emphasized fill and no stroke exactly when a non-empty metabolite
    values mapping was supplied, and the standard fill and stroke
    otherwise. *)
Theorem group_defaults (em : EscherMap)
    (metabolite_data reaction_data reaction_direction : option (gmap string Q))
    (svg : Element) :
  EscherMap_to_svg sqrt str_num fmt_1f em metabolite_data reaction_data reaction_direction
    = OK svg ->
  exists root rg mg,
    child_with_id "eschermap" svg = Some root /\
    child_with_id "reactions" root = Some rg /\
    child_with_id "metabolites" root = Some mg /\
    (get rg "stroke", get rg "stroke-width")
      = (if truthy_data reaction_data then (Some "#eeeeee", Some "5")
         else (Some RXN_STROKE, Some "10")) /\
    (get mg "fill", get mg "stroke")
      = (if truthy_data metabolite_data then (Some "#eeeeee", Some "none")
         else (Some MET_FILL, Some MET_STROKE)) /\
    (truthy_data reaction_data = true <-> exists m, reaction_data = Some m /\ m <> ∅) /\
    (truthy_data metabolite_data = true <-> exists m, metabolite_data = Some m /\ m <> ∅).
Proof.
  unfold EscherMap_to_svg. intros H.
  apply bind_OK in H as (rxn_groups & _ & H).
  apply bind_OK in H as (met_groups & _ & H).
  injection H as <-.
  pose proof (truthy_data_spec reaction_data) as Sr.
  pose proof (truthy_data_spec metabolite_data) as Sm.
  revert Sr Sm.
  destruct (truthy_data reaction_data), (truthy_data metabolite_data);
    intros Sr Sm; do 3 eexists;
    (split; [reflexivity|]);
    (split; [unfold child_with_id, get; simpl; rewrite !fold_append_attrib;
             reflexivity|]);
    (split; [unfold child_with_id, get; simpl; rewrite !fold_append_attrib;
             reflexivity|]);
    unfold get; rewrite !fold_append_attrib;
    (split; [reflexivity|]); (split; [reflexivity|]);
    split; assumption.
Qed.

End Directions.

Lemma simple_map_init :
  EscherMap_init (simple_map (-1) 2 false) None None None None = OK simple_em.
Proof. vm_compute. reflexivity. Qed.

Lemma group_defaults_witness :
  exists svg root rg,
    EscherMap_to_svg Qsqrt str_Q fmt_1f_Q simple_em None (Some {["X" := 1%Q]}) None
      = OK svg /\
    child_with_id "eschermap" svg = Some root /\
    child_with_id "reactions" root = Some rg /\
    (get rg "stroke", get rg "stroke-width") = (Some "#eeeeee", Some "5").
Proof.
  destruct (EscherMap_to_svg Qsqrt str_Q fmt_1f_Q simple_em None (Some {["X" := 1%Q]}) None)
    as [svg|e] eqn:Hsvg.
  - destruct (group_defaults Qsqrt str_Q fmt_1f_Q simple_em
                None (Some {["X" := 1%Q]}) None svg Hsvg)
      as (root & rg & mg & Hroot & Hrg & _ & Hstroke & _).
    exists svg, root, rg.
    split; [reflexivity|]. split; [exact Hroot|]. split; [exact Hrg|].
    rewrite Hstroke. vm_compute. reflexivity.
  - vm_compute in Hsvg. discriminate Hsvg.
Defined.

(** C9 fails as stated: when empty mappings are supplied for the reaction
    and metabolite values, both groups keep the standard defaults. *)
Lemma empty_mapping_keeps_defaults :
  exists em svg root rg mg,
    EscherMap_init (simple_map (-1) 2 false) None None None None = OK em /\
    EscherMap_to_svg Qsqrt str_Q fmt_1f_Q em (Some ∅) (Some ∅) None = OK svg /\
    child_with_id "eschermap" svg = Some root /\
    child_with_id "reactions" root = Some rg /\
    child_with_id "metabolites" root = Some mg /\
    (get rg "stroke", get rg "stroke-width") = (Some RXN_STROKE, Some "10") /\
    (get mg "fill", get mg "stroke") = (Some MET_FILL, Some MET_STROKE).
Proof.
  do 5 eexists. split; [vm_compute; reflexivity|].
  split; [vm_compute; reflexivity|].
  repeat split.
Qed.

(** C10 (the code departs from it, by the defect shown for C4): rendered with
    the reaction values [{R: -1}] and no direction mapping, the reaction [R]
    is subjected to the direction rule with -1.  Its segment of count -1
    gets an arrowhead; its segment of count 2, for which count times value
    is not positive, is a group marked with an empty [marker-end] whose path
    keeps the static arrowhead. *)
Theorem values_as_directions_miss_grouped_path :
  exists em svg root rg a1 a2 a3 lbl,
    EscherMap_init (simple_map (-1) 2 false) None None None None = OK em /\
    EscherMap_to_svg Qsqrt str_Q fmt_1f_Q em None (Some {["R" := (-1)%Q]}) None = OK svg /\
    child_with_id "eschermap" svg = Some root /\
    child_with_id "reactions" root = Some rg /\
    children rg = [mkElement "g" [("name", "R")] None [a1; a2; a3; lbl]] /\
    a1 = segment_path "M 30.0 40.0 L 18.0 24.0" true /\
    carries_arrowhead a1 = Qlt_bool 0 (-1 * -1) /\
    a3 = mkElement "g" [("marker-end", "")] None
           [segment_path "M 60.0 80.0 L 66.0 88.0" true;
            stoich_label "85.2" "73.6" "2"] /\
    Qlt_bool 0 (2 * -1) = false /\
    carries_arrowhead a3 = true.
Proof.
  do 8 eexists. split; [vm_compute; reflexivity|].
  split; [vm_compute; reflexivity|].
  repeat split.
Qed.

(** * Further properties of the code *)

(** ** Scale.style outside and inside the range *)

Lemma Qabs_opp_eq (x : Q) : Qabs (- x) = Qabs x.
Proof. destruct x as [n d]. unfold Qabs, Qopp. simpl. rewrite Z.abs_opp. reflexivity. Qed.

Lemma last_In {A : Type} (x : A) (l : list A) (d : A) :
  In (List.last (x :: l) d) (x :: l).
Proof.
  revert x. induction l as [|y l IH]; intros x; [left; reflexivity|].
  right. exact (IH y).
Qed.

(** In a sorted scale the first stop has the least value. *)
Lemma first_le_last (first : Stop) (rest : list Stop) :
  StronglySorted value_le (first :: rest) ->
  (stop_value first <= stop_value (List.last rest first))%Q.
Proof.
  intros Hs. destruct rest as [|u rest]; [simpl; lra|].
  apply StronglySorted_inv in Hs as [_ Hall].
  rewrite List.Forall_forall in Hall. apply (Hall _ (last_In u rest first)).
Qed.

Lemma value_lt_le_sorted (l : list Stop) :
  StronglySorted value_lt l -> StronglySorted value_le l.
Proof.
  induction 1 as [|s l Hs IH Hall]; constructor; [exact IH|].
  rewrite List.Forall_forall in *. intros t Ht.
  unfold value_le. specialize (Hall t Ht). unfold value_lt in Hall. lra.
Qed.

Lemma Scale_style_below (sc : Scale) (v : Q) (first : Stop) (rest : list Stop) :
  stops sc = first :: rest ->
  (style_value sc v < stop_value first)%Q ->
  Scale_style sc v = OK (stop_style first).
Proof.
  intros Hstops Hlt. unfold Scale_style. fold (style_value sc v).
  rewrite Hstops, (Qlt_bool_true _ _ Hlt). reflexivity.
Qed.

Lemma Scale_style_above (sc : Scale) (v : Q) (first : Stop) (rest : list Stop) :
  stops sc = first :: rest ->
  StronglySorted value_le (stops sc) ->
  (stop_value (List.last rest first) < style_value sc v)%Q ->
  Scale_style sc v = OK (stop_style (List.last rest first)).
Proof.
  intros Hstops Hs Hgt. unfold Scale_style. fold (style_value sc v).
  rewrite Hstops in *. pose proof (first_le_last _ _ Hs) as Hfl.
  rewrite Qlt_bool_false by lra. rewrite (Qlt_bool_true _ _ Hgt). reflexivity.
Qed.

(** The bracketing pair given explicitly. *)
Lemma Scale_style_bracketed (sc : Scale) (v : Q) (first : Stop)
    (mid : list Stop) (ub : Stop) (back : list Stop) :
  stops sc = first :: (mid ++ ub :: back)%list ->
  (stop_value first <= style_value sc v)%Q ->
  (style_value sc v <= stop_value (List.last (mid ++ ub :: back)%list first))%Q ->
  (forall s, In s mid -> (stop_value s < style_value sc v)%Q) ->
  (style_value sc v <= stop_value ub)%Q ->
  (stop_value (List.last mid first) < stop_value ub)%Q ->
  Scale_style sc v = OK (interpolate (List.last mid first) ub (style_value sc v)).
Proof.
  intros Hstops Hlo Hhi Hmid Hub Hlt.
  unfold Scale_style. fold (style_value sc v). rewrite Hstops.
  rewrite (Qlt_bool_false _ _ Hlo), (Qlt_bool_false _ _ Hhi).
  rewrite bracket_finds by assumption.
  unfold py_div.
  destruct (Qeq_bool (stop_value ub - stop_value (List.last mid first)) 0) eqn:Ez.
  - apply Qeq_bool_iff in Ez. lra.
  - simpl. unfold interpolate, truthy_size.
    destruct (stop_color (List.last mid first)), (stop_color ub),
      (stop_size (List.last mid first)), (stop_size ub); reflexivity.
Qed.


Lemma mapM_length {A B : Type} (f : A -> Result B) (l : list A) (l' : list B) :
  mapM f l = OK l' -> List.length l' = List.length l.
Proof.
  revert l'. induction l as [|x l IH]; simpl; intros l' H.
  - injection H as <-. reflexivity.
  - apply bind_OK in H as (y & _ & H). apply bind_OK in H as (ys & Hys & H).
    injection H as <-. simpl. rewrite (IH _ Hys). reflexivity.
Qed.






Lemma Scale_init_sorted (items : list StopItem) (ua : bool) (sc : Scale) :
  Scale_init items ua = OK sc -> StronglySorted value_le (stops sc).
Proof.
  unfold Scale_init. intros H. apply bind_OK in H as (l & _ & H).
  injection H as <-. apply sorted_by_value_sorted.
Qed.

(** X1: a value below the least stop value, or above the greatest, is pegged:
    [style] returns the color and size of the first, respectively last, stop
    of a constructed scale, unchanged. *)
Theorem style_pegs_outside_range (items : list StopItem) (ua : bool) (sc : Scale)
    (first : Stop) (rest : list Stop) (v : Q) :
  Scale_init items ua = OK sc ->
  stops sc = first :: rest ->
  ((style_value sc v < stop_value first)%Q ->
   Scale_style sc v = OK (stop_color first, stop_size first)) /\
  ((stop_value (List.last rest first) < style_value sc v)%Q ->
   Scale_style sc v = OK (stop_color (List.last rest first),
                          stop_size (List.last rest first))).
Proof.
  intros Hinit Hstops. split; intros Hv.
  - apply (Scale_style_below sc v first rest Hstops Hv).
  - apply (Scale_style_above sc v first rest Hstops); [|exact Hv].
    apply (Scale_init_sorted items ua), Hinit.
Qed.

Lemma style_pegs_outside_range_witness :
  exists sc,
    Scale_init two_stops false = OK sc /\
    Scale_style sc (-5) = OK (Some (mkColor 200 200 200), Some 12%Q) /\
    Scale_style sc 250 = OK (Some (mkColor 255 0 0), Some 25%Q).
Proof.
  eexists. split; [reflexivity|].
  pose proof (style_pegs_outside_range two_stops false _ _ _ (-5) eq_refl eq_refl) as [Hlo _].
  pose proof (style_pegs_outside_range two_stops false _ _ _ 250 eq_refl eq_refl) as [_ Hhi].
  split; [apply Hlo; reflexivity | apply Hhi; reflexivity].
Defined.

(** X2: on a scale with [use_abs] set, a value and its opposite get the same
    style, errors included. *)
Theorem style_abs_symmetric (sc : Scale) (v : Q) :
  use_abs sc = true -> Scale_style sc (- v) = Scale_style sc v.
Proof.
  intros H. unfold Scale_style. rewrite H, Qabs_opp_eq. reflexivity.
Qed.

Lemma style_abs_symmetric_witness :
  Scale_style (mkScale [mkStop 0 None (Some 1%Q); mkStop 10 None (Some 3%Q)] true) (- 5)
  = Scale_style (mkScale [mkStop 0 None (Some 1%Q); mkStop 10 None (Some 3%Q)] true) 5.
Proof.
  apply (style_abs_symmetric
           (mkScale [mkStop 0 None (Some 1%Q); mkStop 10 None (Some 3%Q)] true) 5).
  reflexivity.
Defined.

(** X3: a scale of a single stop pegs every number other than the stop's
    own value to that stop; at the stop's value the bracketing loop never
    binds the upper bracket and [style] raises [UnboundLocalError].  A scale
    without stops raises [IndexError].  The values are numbers: NaN is not
    one. *)
Theorem style_single_stop (ua : bool) (s : Stop) (v : Q) :
  let sc := mkScale [s] ua in
  (~ (style_value sc v == stop_value s)%Q ->
   Scale_style sc v = OK (stop_color s, stop_size s)) /\
  ((style_value sc v == stop_value s)%Q ->
   Scale_style sc v = Raise UnboundLocalError) /\
  Scale_style (mkScale [] ua) v = Raise IndexError.
Proof.
  intros sc. split; [|split; [|reflexivity]]; intros Hv;
    unfold Scale_style; fold (style_value sc v); simpl.
  - destruct (Qlt_le_dec (style_value sc v) (stop_value s)) as [Hlt|Hle].
    + rewrite (Qlt_bool_true _ _ Hlt). reflexivity.
    + rewrite (Qlt_bool_false _ _ Hle).
      assert (Hgt : (stop_value s < style_value sc v)%Q).
      { destruct (Qlt_le_dec (stop_value s) (style_value sc v)) as [H|H]; [exact H|].
        exfalso. apply Hv. lra. }
      rewrite (Qlt_bool_true _ _ Hgt). reflexivity.
  - rewrite !Qlt_bool_false by lra. reflexivity.
Qed.

Lemma style_single_stop_witness :
  Scale_style (mkScale [mkStop 3 None None] false) 4 = OK (None, None) /\
  Scale_style (mkScale [mkStop 3 None None] false) 3 = Raise UnboundLocalError.
Proof.
  destruct (style_single_stop false (mkStop 3 None None) 4) as (H1 & _ & _).
  destruct (style_single_stop false (mkStop 3 None None) 3) as (_ & H2 & _).
  split; [apply H1; discriminate | apply H2; reflexivity].
Defined.



Lemma sorted_app_before {A : Type} (R : A -> A -> Prop) (l1 : list A) (x : A) (l2 : list A) :
  StronglySorted R (l1 ++ x :: l2)%list -> forall t, In t l1 -> R t x.
Proof.
  induction l1 as [|y l1 IH]; simpl; intros Hs t Ht; [destruct Ht|].
  apply StronglySorted_inv in Hs as [Hs Hall]. destruct Ht as [<-|Ht].
  - rewrite List.Forall_forall in Hall. apply Hall, in_or_app. right. left. reflexivity.
  - apply (IH Hs t Ht).
Qed.

Lemma sorted_app_tail {A : Type} (R : A -> A -> Prop) (l1 l2 : list A) :
  StronglySorted R (l1 ++ l2)%list -> StronglySorted R l2.
Proof.
  induction l1 as [|y l1 IH]; simpl; intros Hs; [exact Hs|].
  apply StronglySorted_inv in Hs as [Hs _]. apply IH, Hs.
Qed.

Lemma last_app_cons {A : Type} (l1 : list A) (x : A) (l2 : list A) (d : A) :
  List.last (l1 ++ x :: l2)%list d = List.last l2 x.
Proof.
  induction l1 as [|y l1 IH]; simpl.
  - apply last_cons_default.
  - destruct (l1 ++ x :: l2)%list eqn:E; [destruct l1; discriminate E | exact IH].
Qed.

Lemma last_mid_In {A : Type} (first : A) (mid : list A) :
  In (List.last mid first) (first :: mid).
Proof. rewrite <- (last_cons_default first first). apply last_In. Qed.

Lemma blend_at_zero (p : Q) (cu cl : Color) :
  (p == 0)%Q -> Color_eq (blend_color p cu cl) cl.
Proof.
  intros Hp. unfold Color_eq, blend_color, Color_add, Color_rmul, Color_mul. simpl.
  rewrite !Hp. repeat split; ring.
Qed.

Lemma blend_at_one (p : Q) (cu cl : Color) :
  (p == 1)%Q -> Color_eq (blend_color p cu cl) cu.
Proof.
  intros Hp. unfold Color_eq, blend_color, Color_add, Color_rmul, Color_mul. simpl.
  rewrite !Hp. repeat split; ring.
Qed.

(** X5: on a scale of two or more stops of increasing values that all
    define a color, the color returned for the value of a stop is that
    stop's color. *)
Theorem style_at_stop (sc : Scale) (v : Q) (front : list Stop) (s : Stop)
    (back : list Stop) (cs : Color) :
  increasing_scale sc ->
  stops sc = (front ++ s :: back)%list ->
  Forall (fun t => stop_color t <> None) (stops sc) ->
  style_value sc v = stop_value s ->
  stop_color s = Some cs ->
  exists c sz, Scale_style sc v = OK (Some c, sz) /\ Color_eq c cs.
Proof.
  intros [Hs Hlen] Hstops Hcol Hv Hcs.
  rewrite List.Forall_forall in Hcol.
  destruct front as [|first mid]; simpl in Hstops.
  - destruct back as [|u back]; [rewrite Hstops in Hlen; simpl in Hlen; lia|].
    rewrite Hstops in Hs.
    assert (Hsu : (stop_value s < stop_value u)%Q).
    { apply StronglySorted_inv in Hs as [_ Hall]. apply List.Forall_inv in Hall. exact Hall. }
    pose proof (first_le_last _ _ (value_lt_le_sorted _ Hs)) as Hfl.
    rewrite (Scale_style_bracketed sc v s [] u back Hstops); rewrite ?Hv; simpl;
      try lra; try (intros ? []); [|exact Hfl].
    unfold interpolate. simpl. rewrite Hcs.
    destruct (stop_color u) as [cu|] eqn:Hcu.
    + do 2 eexists. split; [reflexivity|].
      apply blend_at_zero. unfold Qdiv. ring.
    + exfalso. apply (Hcol u); [rewrite Hstops; right; left; reflexivity | exact Hcu].
  - rewrite Hstops in Hs.
    assert (Hbefore : forall t, In t (first :: mid) -> (stop_value t < stop_value s)%Q).
    { intros t Ht. apply (sorted_app_before value_lt (first :: mid) s back Hs t Ht). }
    assert (Hlb : (stop_value (List.last mid first) < stop_value s)%Q)
      by apply Hbefore, last_mid_In.
    assert (Hfs : (stop_value first < stop_value s)%Q) by (apply Hbefore; left; reflexivity).
    assert (Hsl : (stop_value s <= stop_value (List.last back s))%Q).
    { apply first_le_last, value_lt_le_sorted.
      apply (sorted_app_tail value_lt (first :: mid) (s :: back)), Hs. }
    rewrite (Scale_style_bracketed sc v first mid s back Hstops); rewrite ?Hv;
      rewrite ?last_app_cons; try lra; try exact Hsl;
      [|intros t Ht; apply Hbefore; right; exact Ht].
    unfold interpolate. rewrite Hcs.
    destruct (stop_color (List.last mid first)) as [cl|] eqn:Hcl.
    + do 2 eexists. split; [reflexivity|].
      apply blend_at_one. field. lra.
    + exfalso. apply (Hcol (List.last mid first)); [|exact Hcl].
      rewrite Hstops. destruct (last_mid_In first mid) as [E|Hin].
      * left. exact E.
      * right. apply in_or_app. left. exact Hin.
Qed.

Lemma style_at_stop_witness :
  exists c sz,
    Scale_style (mkScale [mkStop 0 (Some (mkColor 0 0 0)) None;
                          mkStop 10 (Some (mkColor 100 50 20)) None;
                          mkStop 30 (Some (mkColor 255 255 255)) None] false) 10
      = OK (Some c, sz) /\
    Color_eq c (mkColor 100 50 20).
Proof.
  apply (style_at_stop _ 10 [mkStop 0 (Some (mkColor 0 0 0)) None]
           (mkStop 10 (Some (mkColor 100 50 20)) None)
           [mkStop 30 (Some (mkColor 255 255 255)) None]).
  - split; [|simpl; lia].
    repeat (constructor; try reflexivity).
  - reflexivity.
  - repeat (constructor; try discriminate).
  - reflexivity.
  - reflexivity.
Defined.

(** ** Scale.style and Color.__str__ together *)














(** ** Color: parsing and formatting together *)

Lemma In_all_ascii (a : ascii) : In a all_ascii.
Proof.
  unfold all_ascii. rewrite <- (ascii_nat_embedding a).
  apply in_map, in_seq. pose proof (nat_ascii_bounded a). lia.
Qed.

Lemma int16_pair_bounded (a c : ascii) (n : Z) :
  int16 (str2 a c) = OK n -> (-15 <= n <= 255)%Z.
Proof.
  intros H.
  assert (Hall : forallb (fun x => forallb (pair_value_bounded x) all_ascii) all_ascii = true)
    by (vm_compute; reflexivity).
  rewrite forallb_forall in Hall. specialize (Hall a (In_all_ascii a)).
  rewrite forallb_forall in Hall. specialize (Hall c (In_all_ascii c)).
  unfold pair_value_bounded in Hall. rewrite H in Hall. lia.
Qed.

(** X7: whenever [from_hex] returns a color, its argument has seven
    characters and starts with [#], and each channel is an integer from -15
    to 255. *)
Theorem Color_from_hex_channels (s : string) (c : Color) :
  Color_from_hex s = OK c ->
  startswith "#" s = true /\ String.length s = 7%nat /\
  exists n1 n2 n3 : Z,
    c = mkColor (inject_Z n1) (inject_Z n2) (inject_Z n3) /\
    (-15 <= n1 <= 255)%Z /\ (-15 <= n2 <= 255)%Z /\ (-15 <= n3 <= 255)%Z.
Proof.
  unfold Color_from_hex. intros H.
  destruct (startswith "#" s) eqn:Hp; [|discriminate H].
  destruct (String.length s =? 7)%nat eqn:Hl; [|discriminate H].
  apply Nat.eqb_eq in Hl. split; [reflexivity|]. split; [exact Hl|].
  destruct s as [|c0 [|d1 [|d2 [|d3 [|d4 [|d5 [|d6 [|]]]]]]]]; try discriminate Hl.
  unfold slice, slice_from in H. simpl in H.
  apply bind_OK in H as (n1 & E1 & H). apply bind_OK in H as (n2 & E2 & H).
  apply bind_OK in H as (n3 & E3 & H). injection H as <-.
  exists n1, n2, n3. split; [reflexivity|].
  repeat split; eapply int16_pair_bounded; eassumption.
Qed.

Lemma Color_from_hex_channels_witness :
  exists n1 n2 n3 : Z,
    mkColor (-15) 10 255 = mkColor (inject_Z n1) (inject_Z n2) (inject_Z n3) /\
    (-15 <= n1 <= 255)%Z /\ (-15 <= n2 <= 255)%Z /\ (-15 <= n3 <= 255)%Z.
Proof.
  apply (Color_from_hex_channels "#-F aff" (mkColor (-15) 10 255)).
  reflexivity.
Defined.

Lemma int16_hex_pair_lowercases (a c : ascii) :
  is_hex_digit a = true -> is_hex_digit c = true ->
  exists n, int16 (str2 a c) = OK n /\ (0 <= n <= 255)%Z /\
            two_hex n = str2 (ascii_lower a) (ascii_lower c).
Proof.
  intros Ha Hc. apply is_hex_digit_In in Ha, Hc.
  assert (H : forallb (fun x => forallb (pair_lowercases x) hex_chars) hex_chars = true)
    by (vm_compute; reflexivity).
  rewrite forallb_forall in H. specialize (H a Ha).
  rewrite forallb_forall in H. specialize (H c Hc).
  unfold pair_lowercases in H. destruct (int16 (str2 a c)) as [n|]; [|discriminate].
  apply andb_prop in H as [Hr He]. apply String.eqb_eq in He.
  exists n. split; [reflexivity|]. split; [lia | exact He].
Qed.

(** X8: parsing is case-insensitive and formatting is lowercase: for [#] and
    six hex digits of either case, formatting the parsed color gives the
    string in lowercase. *)
Theorem Color_str_from_hex_lowercases (d1 d2 d3 d4 d5 d6 : ascii) :
  forallb is_hex_digit [d1; d2; d3; d4; d5; d6] = true ->
  bind (Color_from_hex (hex_string d1 d2 d3 d4 d5 d6)) (fun c => OK (Color_str c))
  = OK (hex_string (ascii_lower d1) (ascii_lower d2) (ascii_lower d3)
          (ascii_lower d4) (ascii_lower d5) (ascii_lower d6)).
Proof.
  simpl. intros H. repeat (apply andb_prop in H as [? H]).
  destruct (int16_hex_pair_lowercases d1 d2) as (n1 & E1 & R1 & P1); [assumption..|].
  destruct (int16_hex_pair_lowercases d3 d4) as (n2 & E2 & R2 & P2); [assumption..|].
  destruct (int16_hex_pair_lowercases d5 d6) as (n3 & E3 & R3 & P3); [assumption..|].
  unfold Color_from_hex, hex_string, slice, slice_from, startswith. simpl.
  unfold str2 in E1, E2, E3. rewrite E1, E2, E3. simpl.
  unfold Color_str. simpl r; simpl g; simpl b.
  rewrite !py_int_round_byte by lia.
  rewrite !format_02x_byte by lia.
  rewrite P1, P2, P3. reflexivity.
Qed.

Lemma Color_str_from_hex_lowercases_witness :
  bind (Color_from_hex "#C0FfeE") (fun c => OK (Color_str c)) = OK "#c0ffee".
Proof.
  apply (Color_str_from_hex_lowercases "C" "0" "F" "f" "e" "E"). reflexivity.
Defined.

(** ** The map model: construction *)

Lemma mapM_fails {A B : Type} (f : A -> Result B) (l : list A) (x : A) :
  In x l -> succeeds (f x) = false -> succeeds (mapM f l) = false.
Proof.
  intros Hin Hx. rewrite mapM_succeeds. apply not_true_is_false. intros Hall.
  rewrite forallb_forall in Hall. rewrite (Hall x Hin) in Hx. discriminate Hx.
Qed.

Lemma getitem_Raise {A : Type} (o : option A) (e : Exn) :
  getitem o = Raise e -> e = KeyError.
Proof. destruct o; simpl; intros H; [discriminate | injection H as <-; reflexivity]. Qed.

Lemma Node_init_Raise (key : string) (nj : NodeJson) (e : Exn) :
  Node_init key nj = Raise e -> e = KeyError.
Proof.
  unfold Node_init. destruct (String.eqb (node_type nj) "metabolite"); [|discriminate].
  destruct (node_bigg_id nj), (node_is_primary nj), (node_label_x nj), (node_label_y nj);
    simpl; intros H; try discriminate H; injection H as <-; reflexivity.
Qed.

Lemma Node_init_kind (key : string) (nj : NodeJson) (n : Node) :
  Node_init key nj = OK n ->
  is_metabolite n = String.eqb (node_type nj) "metabolite" /\ node_ref n = key.
Proof.
  unfold Node_init. destruct (String.eqb (node_type nj) "metabolite").
  - intros H. apply bind_OK in H as (? & _ & H). apply bind_OK in H as (? & _ & H).
    apply bind_OK in H as (? & _ & H). apply bind_OK in H as (? & _ & H).
    injection H as <-. split; reflexivity.
  - intros H. injection H as <-. split; reflexivity.
Qed.

Lemma build_nodes_Raise (items : list (string * NodeJson)) (an : gmap string Node)
    (mets : list Node) (e : Exn) :
  build_nodes items an mets = Raise e -> e = KeyError.
Proof.
  revert an mets. induction items as [|[k nj] items IH]; simpl; intros an mets H;
    [discriminate|].
  destruct (Node_init k nj) as [n|e'] eqn:En; simpl in H.
  - apply (IH _ _ H).
  - injection H as <-. apply (Node_init_Raise _ _ _ En).
Qed.

Lemma build_nodes_metabolites (items : list (string * NodeJson)) (an an' : gmap string Node)
    (mets mets' : list Node) :
  build_nodes items an mets = OK (an', mets') ->
  exists ms, mapM node_of_item (List.filter is_metabolite_json items) = OK ms /\
             mets' = (mets ++ ms)%list.
Proof.
  revert an mets. induction items as [|[k nj] items IH]; intros an mets H.
  - simpl in H. injection H as <- <-. exists [].
    split; [reflexivity | symmetry; apply app_nil_r].
  - simpl in H. apply bind_OK in H as (n & Hn & H).
    destruct (IH _ _ H) as (ms & Hms & ->).
    destruct (Node_init_kind _ _ _ Hn) as [Hk _].
    change (List.filter is_metabolite_json ((k, nj) :: items))
      with (if is_metabolite_json (k, nj)
            then (k, nj) :: List.filter is_metabolite_json items
            else List.filter is_metabolite_json items).
    assert (Hkind : is_metabolite_json (k, nj) = is_metabolite n)
      by (symmetry; exact Hk).
    rewrite Hkind. destruct (is_metabolite n).
    + exists (n :: ms). split.
      * simpl. unfold node_of_item at 1. simpl. rewrite Hn, Hms. reflexivity.
      * rewrite <- app_assoc. reflexivity.
    + exists ms. split; [exact Hms | reflexivity].
Qed.

Lemma build_nodes_keys (items : list (string * NodeJson)) (an an' : gmap string Node)
    (mets mets' : list Node) (k : string) :
  build_nodes items an mets = OK (an', mets') ->
  (is_Some (an' !! k) <-> is_Some (an !! k) \/ In k (map fst items)).
Proof.
  revert an mets. induction items as [|[k0 nj] items IH]; simpl; intros an mets H.
  - injection H as <- <-. tauto.
  - apply bind_OK in H as (n & Hn & H). rewrite (IH _ _ H).
    destruct (decide (k0 = k)) as [->|Hne].
    + rewrite lookup_insert_eq. split; [intros _ | intros _; left; eauto].
      right. left. reflexivity.
    + rewrite lookup_insert_ne by exact Hne. tauto.
Qed.

(** X10: the metabolites of a constructed model, which are the nodes that
    are drawn, are exactly the nodes built from the entries of type
    [metabolite] of the document, in document order. *)
Theorem EscherMap_init_metabolites (map_json : MapJson) (w h : option Dim)
    (rs ms : option Scale) (em : EscherMap) :
  EscherMap_init map_json w h rs ms = OK em ->
  mapM node_of_item (List.filter is_metabolite_json (nodes map_json)) = OK (metabolites em) /\
  map node_ref (metabolites em) = map fst (List.filter is_metabolite_json (nodes map_json)) /\
  Forall (fun n => is_metabolite n = true) (metabolites em).
Proof.
  unfold EscherMap_init. intros H.
  apply bind_OK in H as ([all_nodes mets] & Hn & H).
  apply bind_OK in H as (rxns & _ & H). injection H as <-. simpl.
  destruct (build_nodes_metabolites _ _ _ _ _ Hn) as (l & Hl & ->). simpl.
  split; [exact Hl|].
  assert (Hall : forall y, In y l -> exists kv, In kv (List.filter is_metabolite_json (nodes map_json))
                                          /\ node_of_item kv = OK y)
    by apply (mapM_In _ _ _ Hl).
  split.
  - clear Hall Hn. revert l Hl.
    induction (List.filter is_metabolite_json (nodes map_json)) as [|kv kvs IH]; simpl; intros l Hl.
    + injection Hl as <-. reflexivity.
    + apply bind_OK in Hl as (n & Hn' & Hl). apply bind_OK in Hl as (l' & Hl' & Hl).
      injection Hl as <-. simpl. rewrite (IH _ Hl').
      destruct (Node_init_kind _ _ _ Hn') as [_ ->]. reflexivity.
  - rewrite List.Forall_forall. intros n Hin.
    destruct (Hall n Hin) as (kv & Hkv & Hn').
    apply filter_In in Hkv as [_ Hkv].
    destruct (Node_init_kind _ _ _ Hn') as [-> _]. exact Hkv.
Qed.

Lemma EscherMap_init_metabolites_witness :
  map node_ref (metabolites simple_em) = ["n1"; "n4"].
Proof.
  destruct (EscherMap_init_metabolites (simple_map (-1) 2 false) None None None None
              simple_em simple_map_init) as (_ & H & _).
  exact H.
Defined.

Lemma MapSegment_init_Raise (st : gmap string Q) (rev : bool) (sj : SegmentJson)
    (an : gmap string Node) (e : Exn) :
  MapSegment_init st rev sj an = Raise e -> e = KeyError.
Proof.
  unfold MapSegment_init.
  destruct (an !! from_node_id sj) as [n_from|]; simpl;
    [|intros H; injection H as <-; reflexivity].
  destruct (an !! to_node_id sj) as [n_to|]; simpl;
    [|intros H; injection H as <-; reflexivity].
  destruct n_from as [kf cf|kf cf mf pf lf], n_to as [kt ct|kt ct mt pt lt]; simpl;
    try discriminate;
    match goal with
    | |- context [st !! ?m] => destruct (st !! m); simpl
    end; try discriminate; intros H; injection H as <-; reflexivity.
Qed.

Lemma MapSegment_init_missing (st : gmap string Q) (rev : bool) (sj : SegmentJson)
    (an : gmap string Node) :
  an !! from_node_id sj = None \/ an !! to_node_id sj = None ->
  MapSegment_init st rev sj an = Raise KeyError.
Proof.
  unfold MapSegment_init. intros [H|H].
  - rewrite H. reflexivity.
  - rewrite H. destruct (an !! from_node_id sj); reflexivity.
Qed.

Lemma MapReaction_init_Raise (rj : ReactionJson) (an : gmap string Node) (e : Exn) :
  MapReaction_init rj an = Raise e -> e = KeyError.
Proof.
  unfold MapReaction_init.
  destruct (mapM _ (rxn_segments rj)) as [segs|e'] eqn:Hs; simpl; [discriminate|].
  intros H. injection H as <-.
  destruct (mapM_Raise _ _ _ Hs) as (kv & _ & Hkv).
  apply (MapSegment_init_Raise _ _ _ _ _ Hkv).
Qed.

Lemma succeeds_false_Raise {A : Type} (m : Result A) :
  succeeds m = false -> exists e, m = Raise e.
Proof. destruct m as [a|e]; [discriminate | eauto]. Qed.

(** X11: the construction of the model raises nothing but [KeyError], and it
    raises it, returning no model, when a segment of a reaction names a
    [from] or [to] node id that is not a key of the node table. *)
Theorem EscherMap_init_missing_node (map_json : MapJson) (w h : option Dim)
    (rs ms : option Scale) :
  (forall e, EscherMap_init map_json w h rs ms = Raise e -> e = KeyError) /\
  (forall rkv skv,
     In rkv (reactions_json map_json) -> In skv (rxn_segments (snd rkv)) ->
     ~ In (from_node_id (snd skv)) (map fst (nodes map_json)) \/
     ~ In (to_node_id (snd skv)) (map fst (nodes map_json)) ->
     EscherMap_init map_json w h rs ms = Raise KeyError).
Proof.
  assert (Honly : forall e, EscherMap_init map_json w h rs ms = Raise e -> e = KeyError).
  { unfold EscherMap_init. intros e.
    destruct (build_nodes (nodes map_json) ∅ []) as [[an mets]|e'] eqn:Hn; simpl.
    - destruct (mapM _ (reactions_json map_json)) as [rxns|e''] eqn:Hr; simpl; [discriminate|].
      intros H. injection H as <-.
      destruct (mapM_Raise _ _ _ Hr) as (kv & _ & Hkv).
      apply (MapReaction_init_Raise _ _ _ Hkv).
    - intros H. injection H as <-. apply (build_nodes_Raise _ _ _ _ Hn). }
  split; [exact Honly|].
  intros rkv skv Hr Hs Hmiss.
  destruct (EscherMap_init map_json w h rs ms) as [em|e] eqn:Hinit;
    [|rewrite (Honly e eq_refl); reflexivity].
  exfalso. unfold EscherMap_init in Hinit.
  apply bind_OK in Hinit as ([an mets] & Hn & Hinit).
  apply bind_OK in Hinit as (rxns & Hrx & _).
  assert (Hfail : succeeds (mapM (fun kv => MapReaction_init (snd kv) an)
                              (reactions_json map_json)) = false).
  { apply (mapM_fails _ _ rkv Hr). unfold MapReaction_init.
    assert (Hseg : succeeds (mapM (fun kv => MapSegment_init
                                     (stoich_of (rxn_metabolites (snd rkv)))
                                     (reversibility (snd rkv)) (snd kv) an)
                               (rxn_segments (snd rkv))) = false).
    { apply (mapM_fails _ _ skv Hs). rewrite MapSegment_init_missing; [reflexivity|].
      destruct Hmiss as [Hm|Hm]; [left|right];
        apply eq_None_not_Some; intros Hsome;
        apply (build_nodes_keys _ _ _ _ _ _ Hn) in Hsome as [Hsome|Hin];
        try (apply Hm, Hin);
        rewrite lookup_empty in Hsome; destruct Hsome as [? Hx]; discriminate Hx. }
    destruct (succeeds_false_Raise _ Hseg) as (e & ->). reflexivity. }
  rewrite Hrx in Hfail. discriminate Hfail.
Qed.

Lemma EscherMap_init_missing_node_witness :
  EscherMap_init dangling_map None None None None = Raise KeyError.
Proof.
  apply (proj2 (EscherMap_init_missing_node dangling_map None None None None)
           ("r1", mkReactionJson "R" [("a", 1%Q)] false 10 10
                    [("s1", mkSegmentJson "n9" "n1" None None)])
           ("s1", mkSegmentJson "n9" "n1" None None)).
  - left. reflexivity.
  - left. reflexivity.
  - left. simpl. intros [H|[]]. discriminate H.
Defined.


Lemma mapM_map {A B C : Type} (f : A -> Result B) (g : B -> C) (h : A -> C)
    (l : list A) (l' : list B) :
  (forall x y, f x = OK y -> g y = h x) ->
  mapM f l = OK l' -> map g l' = map h l.
Proof.
  intros Hgh. revert l'. induction l as [|x l IH]; simpl; intros l' H.
  - injection H as <-. reflexivity.
  - apply bind_OK in H as (y & Hy & H). apply bind_OK in H as (ys & Hys & H).
    injection H as <-. simpl. rewrite (Hgh _ _ Hy), (IH _ Hys). reflexivity.
Qed.

Lemma MapSegment_init_fields (st : gmap string Q) (rev : bool) (sj : SegmentJson)
    (an : gmap string Node) (seg : MapSegment) :
  MapSegment_init st rev sj an = OK seg -> derived_fields st rev seg.
Proof.
  unfold MapSegment_init, derived_fields. intros H.
  apply bind_OK in H as (n_from & _ & H). apply bind_OK in H as (n_to & _ & H).
  destruct n_from as [kf cf|kf cf mf pf lf], n_to as [kt ct|kt ct mt pt lt];
    simpl in H;
    try (apply bind_OK in H as (c & Hc & H);
         destruct (st !! _) as [c'|] eqn:Est; [|discriminate Hc];
         injection Hc as ->);
    injection H as <-; simpl; eauto 6.
Qed.

Lemma MapReaction_init_fields (rj : ReactionJson) (an : gmap string Node) (rxn : MapReaction) :
  MapReaction_init rj an = OK rxn ->
  reaction_id rxn = rxn_bigg_id rj /\
  stoich rxn = stoich_of (rxn_metabolites rj) /\
  reversible rxn = reversibility rj /\
  label_pos rxn = (rxn_label_x rj, rxn_label_y rj) /\
  List.length (segments rxn) = List.length (rxn_segments rj) /\
  forall seg, In seg (segments rxn) -> derived_fields (stoich rxn) (reversible rxn) seg.
Proof.
  unfold MapReaction_init. intros H.
  apply bind_OK in H as (segs & Hs & H). injection H as <-. simpl.
  repeat split; [apply (mapM_length _ _ _ Hs)|].
  intros seg Hseg. destruct (mapM_In _ _ _ Hs _ Hseg) as (kv & _ & Hkv).
  apply (MapSegment_init_fields _ _ _ _ _ Hkv).
Qed.

Lemma built_segment_fields (map_json : MapJson) (w h : option Dim)
    (rs ms : option Scale) (em : EscherMap) (rxn : MapReaction) (seg : MapSegment) :
  EscherMap_init map_json w h rs ms = OK em ->
  In rxn (reactions em) -> In seg (segments rxn) ->
  derived_fields (stoich rxn) (reversible rxn) seg.
Proof.
  unfold EscherMap_init. intros H Hrxn Hseg.
  apply bind_OK in H as ([an mets] & _ & H).
  apply bind_OK in H as (rxns & Hr & H). injection H as <-. simpl in Hrxn.
  destruct (mapM_In _ _ _ Hr _ Hrxn) as (kv & _ & Hkv).
  apply (MapReaction_init_fields _ _ _ Hkv), Hseg.
Qed.

(** X12: a constructed model has one reaction per reaction entry of the
    document, in document order, with the entry's id, reversibility, label
    position and stoichiometry, and one segment per segment entry.  Each
    segment that ends at a metabolite carries the metabolite's id, its
    coefficient in the reaction as count, and has an arrow when the count is
    positive or the reaction is reversible; every other segment has no
    metabolite id, no count and no arrow. *)
Theorem EscherMap_init_reactions (map_json : MapJson) (w h : option Dim)
    (rs ms : option Scale) (em : EscherMap) :
  EscherMap_init map_json w h rs ms = OK em ->
  map reaction_id (reactions em)
    = map (fun kv => rxn_bigg_id (snd kv)) (reactions_json map_json) /\
  forall rxn, In rxn (reactions em) ->
    exists rj, In rj (map snd (reactions_json map_json)) /\
      reaction_id rxn = rxn_bigg_id rj /\
      stoich rxn = stoich_of (rxn_metabolites rj) /\
      reversible rxn = reversibility rj /\
      label_pos rxn = (rxn_label_x rj, rxn_label_y rj) /\
      List.length (segments rxn) = List.length (rxn_segments rj) /\
      forall seg, In seg (segments rxn) ->
        derived_fields (stoich rxn) (reversible rxn) seg.
Proof.
  unfold EscherMap_init. intros H.
  apply bind_OK in H as ([an mets] & _ & H).
  apply bind_OK in H as (rxns & Hr & H). injection H as <-. simpl. split.
  - apply (mapM_map _ _ _ _ _ (fun kv rxn Hkv =>
             proj1 (MapReaction_init_fields _ _ _ Hkv)) Hr).
  - intros rxn Hrxn. destruct (mapM_In _ _ _ Hr _ Hrxn) as ([k rj] & Hin & Hkv).
    exists rj. split; [apply (in_map snd) in Hin; exact Hin|].
    apply (MapReaction_init_fields _ _ _ Hkv).
Qed.

Lemma EscherMap_init_reactions_witness :
  map reaction_id (reactions simple_em) = ["R"] /\
  forall rxn, In rxn (reactions simple_em) ->
    forall seg, In seg (segments rxn) -> derived_fields (stoich rxn) (reversible rxn) seg.
Proof.
  destruct (EscherMap_init_reactions (simple_map (-1) 2 false) None None None None
              simple_em simple_map_init) as (Hids & Hall).
  split; [exact Hids|].
  intros rxn Hrxn. destruct (Hall rxn Hrxn) as (rj & _ & _ & _ & _ & _ & _ & Hseg).
  exact Hseg.
Defined.

(** ** The renderer: errors and totality *)

Section Rendering.

Variable sqrt : Q -> Q.
Variable str_num : Q -> string.
Variable fmt_1f : Q -> string.

Lemma derived_metabolite_to_svg (st : gmap string Q) (rev : bool) (seg : MapSegment)
    (m : string) :
  derived_fields st rev seg -> metabolite_id seg = Some m ->
  exists radius c,
    Node_size (to_node seg) = OK radius /\ (radius == 20 \/ radius == 12)%Q /\
    count seg = Some c.
Proof.
  unfold derived_fields. intros Hd Hm.
  destruct (to_node seg) as [k c0|k c0 m' p lp].
  - destruct Hd as (Hnone & _). congruence.
  - destruct Hd as (_ & c & _ & Hc & _).
    exists (if p then 20 else 12)%Q, c. split; [reflexivity|]. split; [|exact Hc].
    destruct p; [left | right]; reflexivity.
Qed.

Lemma MapSegment_to_svg_outcome (st : gmap string Q) (rev : bool) (seg : MapSegment) :
  derived_fields st rev seg ->
  (exists arc, MapSegment_to_svg sqrt str_num fmt_1f seg = OK arc /\
               (metabolite_id seg = None \/ ~ (seg_L sqrt seg == 0)%Q)) \/
  (MapSegment_to_svg sqrt str_num fmt_1f seg = Raise ZeroDivisionError /\
   metabolite_id seg <> None /\ (seg_L sqrt seg == 0)%Q).
Proof.
  intros Hd. destruct (metabolite_id seg) as [m|] eqn:Hm.
  - destruct (derived_metabolite_to_svg st rev seg m Hd Hm) as (radius & c & Hr & _ & Hc).
    destruct (Qeq_bool (seg_L sqrt seg) 0) eqn:Hl.
    + right. split; [|split; [discriminate | apply Qeq_bool_iff, Hl]].
      unfold MapSegment_to_svg, trim. rewrite Hm, Hr. simpl.
      fold (approach seg). fold (seg_dx seg). fold (seg_dy seg). fold (seg_L sqrt seg).
      unfold py_div. rewrite Hl. reflexivity.
    + left. unfold MapSegment_to_svg.
      rewrite Hm, Hc, (trim_geometry sqrt seg radius Hr Hl). simpl.
      unfold py_div. rewrite Hl. simpl.
      destruct (Qeq_bool (Qabs c) 1); eexists;
        (split; [reflexivity | right; apply Qeq_bool_neq, Hl]).
  - left. unfold MapSegment_to_svg. rewrite Hm. eexists.
    split; [reflexivity | left; reflexivity].
Qed.

(** X13: on a constructed model, rendering a segment raises only when the
    segment ends at a metabolite whose center coincides with the approach
    point (length L zero), and then it raises [ZeroDivisionError]; every
    other segment is rendered. *)
Theorem segment_render_outcome (map_json : MapJson) (w h : option Dim)
    (rs ms : option Scale) (em : EscherMap) (rxn : MapReaction) (seg : MapSegment) :
  EscherMap_init map_json w h rs ms = OK em ->
  In rxn (reactions em) -> In seg (segments rxn) ->
  (exists arc, MapSegment_to_svg sqrt str_num fmt_1f seg = OK arc /\
               (metabolite_id seg = None \/ ~ (seg_L sqrt seg == 0)%Q)) \/
  (MapSegment_to_svg sqrt str_num fmt_1f seg = Raise ZeroDivisionError /\
   metabolite_id seg <> None /\ (seg_L sqrt seg == 0)%Q).
Proof.
  intros Hinit Hrxn Hseg.
  apply (MapSegment_to_svg_outcome (stoich rxn) (reversible rxn)).
  apply (built_segment_fields _ _ _ _ _ _ _ _ Hinit Hrxn Hseg).
Qed.




Lemma Node_size_values (n : Node) (radius : Q) :
  Node_size n = OK radius -> radius = 20%Q \/ radius = 12%Q.
Proof.
  destruct n as [k c|k c m p lp]; simpl; [discriminate|].
  intros H. injection H as <-. destruct p; [left | right]; reflexivity.
Qed.

(** X15: when the length L from the approach point to the metabolite
    exceeds the node radius, the segment is trimmed to a point strictly
    between the approach point and the node center: the end point is
    approach + (dx, dy) * ratio with 0 < ratio < 1, so the trimmed length is
    positive. *)
Theorem trim_end_between (seg : MapSegment) (radius : Q) :
  Node_size (to_node seg) = OK radius ->
  (radius < seg_L sqrt seg)%Q ->
  let ratio := (trimmed_length sqrt seg radius / seg_L sqrt seg)%Q in
  exists t,
    trim sqrt seg = OK t /\
    trim_end t = (fst (approach seg) + seg_dx seg * ratio,
                  snd (approach seg) + seg_dy seg * ratio)%Q /\
    (0 < ratio)%Q /\ (ratio < 1)%Q.
Proof.
  intros Hr HL ratio.
  assert (Hrad : (0 < radius)%Q)
    by (destruct (Node_size_values _ _ Hr) as [-> | ->]; reflexivity).
  assert (Hl : Qeq_bool (seg_L sqrt seg) 0 = false).
  { destruct (Qeq_bool (seg_L sqrt seg) 0) eqn:E; [|reflexivity].
    apply Qeq_bool_iff in E. lra. }
  eexists. split; [apply (trim_geometry sqrt seg radius Hr Hl)|].
  split; [reflexivity|].
  assert (Hpad : (0 < padding seg)%Q)
    by (unfold padding; destruct (has_arrow seg); reflexivity).
  assert (Htl : (0 < trimmed_length sqrt seg radius < seg_L sqrt seg)%Q).
  { unfold trimmed_length.
    destruct (Qlt_bool (seg_L sqrt seg - radius - padding seg) 5) eqn:E; [split; lra|].
    unfold Qlt_bool in E. apply negb_false_iff, Qle_bool_iff in E. split; lra. }
  subst ratio. split.
  - apply Qlt_shift_div_l; lra.
  - apply Qlt_shift_div_r; lra.
Qed.

Lemma override_arc_static (color : option Color) (size : option Q) (seg : MapSegment)
    (d_attr x y txt : string) (arrow grouped : bool) :
  carries_arrowhead (override_arc str_num color size None seg
                       (segment_primitive d_attr x y txt arrow grouped)) = arrow.
Proof.
  unfold override_arc, segment_primitive.
  destruct color, size, grouped, arrow; reflexivity.
Qed.

(** X16: on a constructed model, the primitive of a segment, after the
    overrides of its reaction, carries an arrowhead as follows.  Without a
    direction, or on a segment without count, it does when the segment has
    an arrow.  With a direction d on a segment of count c, it does when
    c * d > 0, and also when the segment has an arrow and a stoichiometry
    label (the absolute count is not 1). *)
Theorem arrowhead_rule (map_json : MapJson) (w h : option Dim)
    (rs ms : option Scale) (em : EscherMap) (rxn : MapReaction) (seg : MapSegment)
    (arc : Element) (color : option Color) (size direction : option Q) :
  EscherMap_init map_json w h rs ms = OK em ->
  In rxn (reactions em) -> In seg (segments rxn) ->
  MapSegment_to_svg sqrt str_num fmt_1f seg = OK arc ->
  carries_arrowhead (override_arc str_num color size direction seg arc)
  = match direction, count seg with
    | Some d, Some c =>
        Qlt_bool 0 (c * d) || (has_arrow seg && negb (Qeq_bool (Qabs c) 1))
    | _, _ => has_arrow seg
    end.
Proof.
  intros Hinit Hrxn Hseg Harc.
  pose proof (built_segment_fields _ _ _ _ _ _ _ _ Hinit Hrxn Hseg) as Hd.
  unfold derived_fields in Hd.
  destruct (to_node seg) as [k c0|k c0 m p lp] eqn:Hto.
  - destruct Hd as (Hm & Hc & Ha). rewrite Hc, Ha.
    unfold MapSegment_to_svg in Harc. rewrite Hm in Harc. injection Harc as <-.
    unfold override_arc. rewrite Hc.
    destruct direction, color, size; reflexivity.
  - destruct Hd as (Hm & c & _ & Hc & _). rewrite Hc.
    destruct direction as [d|].
    + apply (direction_rule_on_segment sqrt str_num fmt_1f color size d c seg m arc Hm Hc Harc).
    + destruct (MapSegment_to_svg_shape _ _ _ _ _ _ _ Hm Hc Harc) as (d_attr & x & y & ->).
      destruct (Qeq_bool (Qabs c) 1).
      * apply (override_arc_static color size seg d_attr x y (str_num (Qabs c))
                 (has_arrow seg) false).
      * apply (override_arc_static color size seg d_attr x y (str_num (Qabs c))
                 (has_arrow seg) true).
Qed.

End Rendering.


Lemma simple_rxn_In : In simple_rxn (reactions simple_em).
Proof. left. reflexivity. Qed.

Lemma segment_b_In : In (segment_b 2) (segments simple_rxn).
Proof. right. right. left. reflexivity. Qed.

Lemma segment_render_outcome_witness :
  exists arc, MapSegment_to_svg Qsqrt str_Q fmt_1f_Q (segment_b 2) = OK arc.
Proof.
  destruct (segment_render_outcome Qsqrt str_Q fmt_1f_Q _ _ _ _ _ simple_em
              simple_rxn (segment_b 2) simple_map_init simple_rxn_In segment_b_In)
    as [(arc & H & _)|(H & _)].
  - exists arc. exact H.
  - vm_compute in H. discriminate H.
Defined.




Lemma trim_end_between_witness :
  exists t,
    trim Qsqrt (segment_b 2) = OK t /\
    trim_end t = (fst (approach (segment_b 2))
                  + seg_dx (segment_b 2)
                    * (trimmed_length Qsqrt (segment_b 2) 20 / seg_L Qsqrt (segment_b 2)),
                  snd (approach (segment_b 2))
                  + seg_dy (segment_b 2)
                    * (trimmed_length Qsqrt (segment_b 2) 20 / seg_L Qsqrt (segment_b 2)))%Q /\
    (0 < trimmed_length Qsqrt (segment_b 2) 20 / seg_L Qsqrt (segment_b 2))%Q /\
    (trimmed_length Qsqrt (segment_b 2) 20 / seg_L Qsqrt (segment_b 2) < 1)%Q.
Proof.
  apply (trim_end_between Qsqrt (segment_b 2) 20); reflexivity.
Defined.

Lemma arrowhead_rule_witness :
  exists arc,
    MapSegment_to_svg Qsqrt str_Q fmt_1f_Q (segment_b 2) = OK arc /\
    carries_arrowhead (override_arc str_Q None None (Some 3%Q) (segment_b 2) arc) = true.
Proof.
  destruct (MapSegment_to_svg Qsqrt str_Q fmt_1f_Q (segment_b 2)) as [arc|e] eqn:Harc.
  - exists arc. split; [reflexivity|].
    rewrite (arrowhead_rule Qsqrt str_Q fmt_1f_Q _ _ _ _ _ simple_em simple_rxn
               (segment_b 2) arc None None (Some 3%Q)
               simple_map_init simple_rxn_In segment_b_In Harc).
    reflexivity.
  - vm_compute in Harc. discriminate Harc.
Defined.

(** ** The stoichiometry of a reaction *)

Lemma stoich_fold_notin (mets : list (string * Q)) (d : gmap string Q) (k : string) :
  ~ In k (map fst mets) ->
  fold_left (fun d m => <[fst m := snd m]> d) mets d !! k = d !! k.
Proof.
  revert d. induction mets as [|[k0 v0] mets IH]; simpl; intros d Hk; [reflexivity|].
  rewrite IH by tauto. apply lookup_insert_ne. tauto.
Qed.

(** X17: the stoichiometry built from the metabolite list of a reaction
    entry maps a metabolite id to the coefficient of its last entry in the
    list, and has no entry for an id that is not in the list. *)
Theorem stoich_of_lookup (mets : list (string * Q)) (k : string) :
  (~ In k (map fst mets) -> stoich_of mets !! k = None) /\
  (forall (l : list (string * Q)) (v : Q) (l' : list (string * Q)),
     mets = (l ++ (k, v) :: l')%list -> ~ In k (map fst l') ->
     stoich_of mets !! k = Some v).
Proof.
  unfold stoich_of. split.
  - intros Hk. rewrite stoich_fold_notin by exact Hk. apply lookup_empty.
  - intros l v l' -> Hk. rewrite fold_left_app. simpl.
    rewrite stoich_fold_notin by exact Hk. apply lookup_insert_eq.
Qed.

Lemma stoich_of_lookup_witness :
  stoich_of [("a", 1%Q); ("b", 2%Q); ("a", 3%Q)] !! "a" = Some 3%Q.
Proof.
  apply (proj2 (stoich_of_lookup [("a", 1%Q); ("b", 2%Q); ("a", 3%Q)] "a")
           [("a", 1%Q); ("b", 2%Q)] 3%Q []).
  - reflexivity.
  - intros [].
Defined.

(** ** The preset scales *)

Lemma dict_set_fresh (k : Q) (v : option string * option Q) (d : list StopItem) :
  Forall (fun item => ~ (fst item == k)%Q) d -> dict_set k v d = (d ++ [(k, v)])%list.
Proof.
  induction 1 as [|[k' v'] d Hk Hd IH]; simpl; [reflexivity|].
  simpl in Hk. destruct (Qeq_bool k' k) eqn:E; [apply Qeq_bool_iff in E; contradiction|].
  rewrite IH. reflexivity.
Qed.

Lemma dict_display_fold (items acc : list StopItem) :
  distinct_keys items ->
  (forall a i, In a acc -> In i items -> ~ (fst a == fst i)%Q) ->
  fold_left (fun d kv => dict_set (fst kv) (snd kv) d) items acc = (acc ++ items)%list.
Proof.
  revert acc. induction items as [|[k v] items IH]; intros acc Hd Hacc; simpl.
  - symmetry. apply app_nil_r.
  - destruct Hd as [Hall Hd]. rewrite List.Forall_forall in Hall.
    rewrite dict_set_fresh.
    + rewrite IH, <- app_assoc; [reflexivity | exact Hd |].
      intros a i Ha Hi. apply in_app_or in Ha as [Ha|[<-|[]]].
      * apply Hacc; [exact Ha | right; exact Hi].
      * simpl. intros E. apply (Hall i Hi). symmetry. exact E.
    + rewrite List.Forall_forall. intros a Ha.
      apply (Hacc a (k, v) Ha). left. reflexivity.
Qed.

(** A dict display with pairwise different keys has its entries as items. *)
Lemma dict_display_distinct (items : list StopItem) :
  distinct_keys items -> dict_display items = items.
Proof.
  intros Hd. unfold dict_display.
  rewrite dict_display_fold; [reflexivity | exact Hd | intros a i []].
Qed.

Lemma sorted_by_value_fixed (l : list Stop) :
  StronglySorted value_lt l -> sorted_by_value l = l.
Proof.
  induction 1 as [|s l Hs IH Hall]; simpl; [reflexivity|].
  rewrite IH. destruct l as [|t l]; [reflexivity|]. simpl.
  apply List.Forall_inv in Hall. unfold value_lt in Hall.
  assert (E : Qle_bool (stop_value s) (stop_value t) = true)
    by (apply Qle_bool_iff; lra).
  rewrite E. reflexivity.
Qed.

Ltac preset_solve :=
  rewrite dict_display_distinct
    by (simpl; repeat split; repeat constructor; simpl; lra);
  unfold Scale_init; cbn [mapM stop_of_item bind];
  repeat match goal with
         | |- context [Color_from_hex ?s] =>
             let c := eval vm_compute in (Color_from_hex s) in
             change (Color_from_hex s) with c
         end;
  cbn [bind];
  rewrite sorted_by_value_fixed
    by (repeat constructor; unfold value_lt; simpl; lra);
  reflexivity.

(** X18: called with increasing arguments, each preset returns the scale
    whose stops are its arguments, in that order, with the colors and sizes
    of its definition; all presets but GeGaRd, which has a stop at 0, work
    on absolute values. *)
Theorem presets_increasing (a b c d : Q) :
  (a < b)%Q -> (b < c)%Q -> (c < d)%Q ->
  GaBuGeRd a b c d
    = OK (mkScale [mkStop a (Some (mkColor 200 200 200)) (Some 12%Q);
                   mkStop b (Some (mkColor 150 150 255)) (Some 16%Q);
                   mkStop c (Some (mkColor 32 145 35)) (Some 20%Q);
                   mkStop d (Some (mkColor 255 0 0)) (Some 25%Q)] true) /\
  GaBuRd a b c
    = OK (mkScale [mkStop a (Some (mkColor 200 200 200)) (Some 12%Q);
                   mkStop b (Some (mkColor 150 150 255)) (Some 20%Q);
                   mkStop c (Some (mkColor 255 0 0)) (Some 25%Q)] true) /\
  RdYlBu a b c
    = OK (mkScale [mkStop a (Some (mkColor 215 25 28)) (Some 12%Q);
                   mkStop b (Some (mkColor 255 255 191)) (Some 20%Q);
                   mkStop c (Some (mkColor 44 123 182)) (Some 25%Q)] true) /\
  WhYlRd a b c
    = OK (mkScale [mkStop a (Some (mkColor 255 250 240)) (Some 20%Q);
                   mkStop b (Some (mkColor 241 196 112)) (Some 30%Q);
                   mkStop c (Some (mkColor 128 0 0)) (Some 40%Q)] true) /\
  GaBu a b
    = OK (mkScale [mkStop a (Some (mkColor 238 238 238)) (Some 5%Q);
                   mkStop b (Some (mkColor 31 119 180)) (Some 20%Q)] true) /\
  ((a < 0)%Q -> (0 < b)%Q ->
   GeGaRd a b
     = OK (mkScale [mkStop a (Some (mkColor 32 145 35)) (Some 25%Q);
                    mkStop 0 (Some (mkColor 200 200 200)) (Some 12%Q);
                    mkStop b (Some (mkColor 255 0 0)) (Some 25%Q)] false)).
Proof.
  intros Hab Hbc Hcd.
  split; [unfold GaBuGeRd; preset_solve|].
  split; [unfold GaBuRd; preset_solve|].
  split; [unfold RdYlBu; preset_solve|].
  split; [unfold WhYlRd; preset_solve|].
  split; [unfold GaBu; preset_solve|].
  intros Ha Hb. unfold GeGaRd. preset_solve.
Qed.

Lemma presets_increasing_witness :
  GaBuRd 0 20 100
    = OK (mkScale [mkStop 0 (Some (mkColor 200 200 200)) (Some 12%Q);
                   mkStop 20 (Some (mkColor 150 150 255)) (Some 20%Q);
                   mkStop 100 (Some (mkColor 255 0 0)) (Some 25%Q)] true) /\
  GeGaRd (-100) 100
    = OK (mkScale [mkStop (-100) (Some (mkColor 32 145 35)) (Some 25%Q);
                   mkStop 0 (Some (mkColor 200 200 200)) (Some 12%Q);
                   mkStop 100 (Some (mkColor 255 0 0)) (Some 25%Q)] false).
Proof.
  split.
  - apply (presets_increasing 0 20 100 200); reflexivity.
  - apply (presets_increasing (-100) 100 200 300); reflexivity.
Defined.

(** X19: a preset called with two equal bounds builds a scale of a single
    stop, the later entry of the dict display replacing the earlier: GaBu
    with equal bounds x has the one stop (x, #1f77b4, 20), and styling a
    value of absolute value x raises [UnboundLocalError]. *)
Theorem GaBu_equal_bounds (x : Q) :
  GaBu x x = OK (mkScale [mkStop x (Some (mkColor 31 119 180)) (Some 20%Q)] true) /\
  forall v, (Qabs v == x)%Q ->
    Scale_style (mkScale [mkStop x (Some (mkColor 31 119 180)) (Some 20%Q)] true) v
    = Raise UnboundLocalError.
Proof.
  split.
  - unfold GaBu, dict_display. simpl.
    assert (E : Qeq_bool x x = true) by (apply Qeq_bool_iff; reflexivity).
    rewrite E. reflexivity.
  - intros v Hv. unfold Scale_style. simpl.
    rewrite !Qlt_bool_false by lra. reflexivity.
Qed.

Lemma GaBu_equal_bounds_witness :
  bind (GaBu 7 7) (fun sc => Scale_style sc (-7)) = Raise UnboundLocalError.
Proof.
  destruct (GaBu_equal_bounds 7) as [-> H]. simpl. apply H. reflexivity.
Defined.

(** ** The structure of the document *)

Lemma mapM_Forall2 {A B : Type} (f : A -> Result B) (l : list A) (l' : list B) :
  mapM f l = OK l' -> List.Forall2 (fun x y => f x = OK y) l l'.
Proof.
  revert l'. induction l as [|x l IH]; simpl; intros l' H.
  - injection H as <-. constructor.
  - apply bind_OK in H as (y & Hy & H). apply bind_OK in H as (ys & Hys & H).
    injection H as <-. constructor; [exact Hy | apply IH, Hys].
Qed.

Lemma fold_append_children (l : list Element) (e : Element) :
  children (fold_left append l e) = (children e ++ l)%list.
Proof.
  revert e. induction l as [|c l IH]; intros e; simpl.
  - symmetry. apply app_nil_r.
  - rewrite IH. destruct e as [t a tx ch]. simpl. rewrite <- app_assoc. reflexivity.
Qed.

Lemma fold_append_tag (l : list Element) (e : Element) :
  tag (fold_left append l e) = tag e.
Proof.
  revert e. induction l as [|c l IH]; intros e; simpl; [reflexivity|].
  rewrite IH. destruct e; reflexivity.
Qed.

Section Document.

Variable sqrt : Q -> Q.
Variable str_num : Q -> string.
Variable fmt_1f : Q -> string.

Lemma MapReaction_to_svg_group (scale : option Scale) (rxn : MapReaction)
    (value direction : option Q) (grp : Element) :
  MapReaction_to_svg sqrt str_num fmt_1f scale rxn value direction = OK grp ->
  reaction_group str_num rxn grp.
Proof.
  unfold MapReaction_to_svg. intros H.
  apply bind_OK in H as ([color size] & _ & H).
  apply bind_OK in H as (arcs & Harcs & H). injection H as <-.
  split; [reflexivity|]. split; [reflexivity|].
  exists arcs. split; [reflexivity | apply (mapM_length _ _ _ Harcs)].
Qed.

Lemma MapMetabolite_to_svg_group (scale : option Scale) (n : Node)
    (value : option Q) (grp : Element) :
  MapMetabolite_to_svg str_num scale n value = OK grp ->
  metabolite_group str_num n grp.
Proof.
  unfold MapMetabolite_to_svg, metabolite_group.
  destruct n as [k c|k c m p lp]; [discriminate|]. simpl. intros H.
  apply bind_OK in H as (circle & Hc & H). injection H as <-.
  split; [reflexivity|]. split; [reflexivity|].
  exists circle. split; [|reflexivity].
  destruct value as [v|]; [destruct scale as [sc|]|]; try (injection Hc as <-; reflexivity).
  apply bind_OK in Hc as ([color size] & _ & Hc). injection Hc as <-. reflexivity.
Qed.

(** X20: every document [to_svg] returns has the same structure: an [svg]
    element holding the [defs] (style sheet and arrowhead marker) and the
    group [eschermap]; that group holds the [canvas] rectangle, the group
    [reactions] and the group [metabolites], in this order.  The reactions
    group has one sub-group per reaction of the model, in order, named by the
    reaction id and holding one primitive per segment followed by the label;
    the metabolites group has one sub-group per metabolite, in order, named
    by the metabolite id and holding a circle and the label. *)
Theorem document_structure (em : EscherMap)
    (metabolite_data reaction_data reaction_direction : option (gmap string Q))
    (svg : Element) :
  EscherMap_to_svg sqrt str_num fmt_1f em metabolite_data reaction_data reaction_direction
    = OK svg ->
  tag svg = "svg" /\
  exists defs root canvas rg mg,
    children svg = [defs; root] /\
    tag defs = "defs" /\
    children defs = [mkElement "style" [("type", "text/css")] (Some CSS) []; marker_element] /\
    get root "id" = Some "eschermap" /\
    children root = [canvas; rg; mg] /\
    (tag canvas, get canvas "id") = ("rect", Some "canvas") /\
    (tag rg, get rg "id") = ("g", Some "reactions") /\
    (tag mg, get mg "id") = ("g", Some "metabolites") /\
    List.Forall2 (reaction_group str_num) (reactions em) (children rg) /\
    List.Forall2 (metabolite_group str_num) (metabolites em) (children mg).
Proof.
  unfold EscherMap_to_svg. intros H.
  apply bind_OK in H as (rxn_groups & Hr & H).
  apply bind_OK in H as (met_groups & Hm & H). injection H as <-.
  split; [reflexivity|]. do 5 eexists.
  split; [reflexivity|]. split; [reflexivity|]. split; [reflexivity|].
  split; [reflexivity|]. split; [reflexivity|]. split; [reflexivity|].
  split; [|split; [|split]].
  - unfold get. rewrite fold_append_attrib, fold_append_tag.
    destruct (truthy_data reaction_data); reflexivity.
  - unfold get. rewrite fold_append_attrib, fold_append_tag.
    destruct (truthy_data metabolite_data); reflexivity.
  - rewrite fold_append_children.
    replace (children _) with (@nil Element)
      by (destruct (truthy_data reaction_data); reflexivity).
    simpl. apply mapM_Forall2 in Hr.
    eapply List.Forall2_impl; [|exact Hr].
    intros rxn grp Hgrp. apply (MapReaction_to_svg_group _ _ _ _ _ Hgrp).
  - rewrite fold_append_children.
    replace (children _) with (@nil Element)
      by (destruct (truthy_data metabolite_data); reflexivity).
    simpl. apply mapM_Forall2 in Hm.
    eapply List.Forall2_impl; [|exact Hm].
    intros n grp Hgrp. apply (MapMetabolite_to_svg_group _ _ _ _ Hgrp).
Qed.

End Document.

Lemma document_structure_witness :
  exists svg root canvas rg mg,
    EscherMap_to_svg Qsqrt str_Q fmt_1f_Q simple_em None None None = OK svg /\
    get root "id" = Some "eschermap" /\
    children root = [canvas; rg; mg] /\
    List.Forall2 (reaction_group str_Q) (reactions simple_em) (children rg).
Proof.
  destruct (EscherMap_to_svg Qsqrt str_Q fmt_1f_Q simple_em None None None)
    as [svg|e] eqn:Hsvg.
  - destruct (document_structure Qsqrt str_Q fmt_1f_Q simple_em None None None svg Hsvg)
      as (_ & defs & root & canvas & rg & mg & _ & _ & _ & Hid & Hch & _ & _ & _ & Hrg & _).
    exists svg, root, canvas, rg, mg. auto.
  - vm_compute in Hsvg. discriminate Hsvg.
Defined.

(** ** Styling by a scale *)

Section Styling.

Variable sqrt : Q -> Q.
Variable str_num : Q -> string.
Variable fmt_1f : Q -> string.


Lemma MapSegment_to_svg_no_stroke (seg : MapSegment) (arc : Element) :
  MapSegment_to_svg sqrt str_num fmt_1f seg = OK arc ->
  get arc "stroke" = None /\ get arc "stroke-width" = None.
Proof.
  unfold MapSegment_to_svg. destruct (metabolite_id seg).
  - intros H. apply bind_OK in H as (t & _ & H).
    destruct (count seg) as [c|]; [|discriminate H].
    destruct (Qeq_bool (Qabs c) 1).
    + injection H as <-.
      destruct (b1 seg), (b2 seg), (has_arrow seg); split; reflexivity.
    + apply bind_OK in H as (qx & _ & H). apply bind_OK in H as (qy & _ & H).
      injection H as <-. split; reflexivity.
  - intros H. injection H as <-. split; reflexivity.
Qed.

Lemma override_arc_stroke (color : option Color) (size direction : option Q)
    (seg : MapSegment) (arc : Element) :
  get (override_arc str_num color size direction seg arc) "stroke"
  = match color with Some col => Some (Color_str col) | None => get arc "stroke" end /\
  get (override_arc str_num color size direction seg arc) "stroke-width"
  = match size with Some x => Some (str_num x) | None => get arc "stroke-width" end.
Proof.
  unfold override_arc, get, set. destruct arc as [t a tx ch].
  assert (N1 : "stroke" <> "stroke-width") by discriminate.
  assert (N2 : "stroke" <> "marker-end") by discriminate.
  assert (N3 : "stroke-width" <> "marker-end") by discriminate.
  assert (N4 : "stroke-width" <> "stroke") by discriminate.
  destruct color as [col|], size as [x|], direction as [d|], (count seg) as [c|];
    simpl; try destruct (Qlt_bool 0 (c * d)); simpl;
    rewrite ?(attrib_get_set_ne _ _ _ _ N2), ?(attrib_get_set_ne _ _ _ _ N3),
      ?attrib_get_set_eq, ?(attrib_get_set_ne _ _ _ _ N1), ?(attrib_get_set_ne _ _ _ _ N4),
      ?attrib_get_set_eq;
    split; reflexivity.
Qed.

(** X22: the style of a reaction is applied to each of its segment
    primitives.  In the sub-group of a reaction, which holds the primitives
    and then the label, every primitive has the stroke of the style color
    and the stroke width of the style size when the reaction has a value and
    the map a reaction scale, and neither attribute, so that the defaults of
    the reactions group apply, when the value or the scale is missing. *)
Theorem reaction_styling (scale : option Scale) (rxn : MapReaction)
    (value direction : option Q) (grp : Element) :
  MapReaction_to_svg sqrt str_num fmt_1f scale rxn value direction = OK grp ->
  exists color size arcs,
    match value, scale with
    | Some v, Some sc => Scale_style sc v
    | _, _ => OK (None, None)
    end = OK (color, size) /\
    children grp = (arcs ++ [label_element str_num (label_pos rxn) (reaction_id rxn)])%list /\
    forall arc, In arc arcs ->
      get arc "stroke" = option_map Color_str color /\
      get arc "stroke-width" = option_map str_num size.
Proof.
  unfold MapReaction_to_svg. intros H.
  apply bind_OK in H as ([color size] & Hstyle & H).
  apply bind_OK in H as (arcs & Harcs & H). injection H as <-.
  exists color, size, arcs. split; [exact Hstyle|]. split; [reflexivity|].
  intros arc Harc. destruct (mapM_In _ _ _ Harcs _ Harc) as (seg & _ & Hseg).
  apply bind_OK in Hseg as (arc0 & Harc0 & Hseg). injection Hseg as <-.
  destruct (MapSegment_to_svg_no_stroke seg arc0 Harc0) as [Hs Hw].
  destruct (override_arc_stroke color size direction seg arc0) as [-> ->].
  rewrite Hs, Hw. destruct color, size; split; reflexivity.
Qed.

End Styling.


Lemma reaction_styling_witness :
  exists grp arcs,
    MapReaction_to_svg Qsqrt str_Q fmt_1f_Q (Some two_stops_scale) simple_rxn
      (Some 50%Q) (Some 1%Q) = OK grp /\
    children grp = (arcs ++ [label_element str_Q (50, 50)%Q "R"])%list /\
    arcs <> [] /\
    forall arc, In arc arcs ->
      get arc "stroke" = Some "#e46464" /\ get arc "stroke-width" = Some "18.5".
Proof.
  destruct (MapReaction_to_svg Qsqrt str_Q fmt_1f_Q (Some two_stops_scale) simple_rxn
              (Some 50%Q) (Some 1%Q)) as [grp|e] eqn:Hgrp.
  - destruct (reaction_styling Qsqrt str_Q fmt_1f_Q (Some two_stops_scale) simple_rxn
                (Some 50%Q) (Some 1%Q) grp Hgrp)
      as (color & size & arcs & Hstyle & Hch & Hall).
    vm_compute in Hstyle. injection Hstyle as <- <-.
    exists grp, arcs. split; [reflexivity|]. split; [exact Hch|]. split.
    + intros ->. vm_compute in Hgrp. injection Hgrp as <-. discriminate Hch.
    + intros arc Harc. destruct (Hall arc Harc) as [H1 H2].
      rewrite H1, H2. vm_compute. split; reflexivity.
  - vm_compute in Hgrp. discriminate Hgrp.
Defined.
